(** * Melo JSON-RPC 2.0 layer (src/lib/melo_jsonrpc.c)

    A shallow embedding of the method registry, the request processor, the
    batch dispatcher, the parameter validator and the response builder of
    [melo_jsonrpc.c], followed by the properties of its specification.

    - JSON values are the nodes of json-glib: [JsonNode].  A gint64 is a
      [Z] (the file does no arithmetic on it), a gdouble a binary64 [float],
      a C string a [string], a NULL pointer [None].
    - The global [melo_jsonrpc_methods] hash table is a
      [option (gmap string MeloJSONRPCInternalMethod)]: [None] is the NULL
      pointer the C code starts from and returns to.  The mutex around it
      has no counterpart: calls are taken one after the other.
    - A callback is arbitrary code of a Melo module; its effect on the rest
      of the process is threaded explicitly through a state of type [World].
      The table of methods is not part of that state: callbacks are taken
      not to register or unregister methods while a request is processed.
    - Out parameters ([JsonNode **error], the filled [obj] / [array]) are
      returned next to the C return value.
    - GLib allocation does not fail (it aborts the process instead), so the
      branches on a failed [json_builder_new], [json_parser_new] or
      [g_slice_new] have no counterpart. *)

From Stdlib Require Import ZArith Bool Ascii String List.
From Stdlib Require Import Floats.PrimFloat Floats.SpecFloat Floats.FloatOps.
From stdpp Require Import gmap strings list fin_maps pretty.

Local Open Scope string_scope.
Local Open Scope Z_scope.

(** ** json-glib, as far as melo_jsonrpc.c uses it *)

Module JsonGlib.

#[local] Set Warnings "-register-all".

(** A [JsonNode]. json-glib has four node types; a VALUE node holds a
    boolean, a gint64, a gdouble or a string.  An object keeps its members
    in insertion order with unique names, an array is a sequence. *)
Inductive JsonNode : Type :=
| JNull
| JBool (b : bool)
| JInt (n : Z)
| JDouble (d : float)
| JString (s : string)
| JObject (members : list (string * JsonNode))
| JArray (elements : list JsonNode).

Abbreviation JsonObject := (list (string * JsonNode)).
Abbreviation JsonArray := (list JsonNode).

Inductive JsonNodeType : Set :=
| JSON_NODE_OBJECT | JSON_NODE_ARRAY | JSON_NODE_VALUE | JSON_NODE_NULL.

Inductive GType : Set :=
| G_TYPE_INVALID | G_TYPE_BOOLEAN | G_TYPE_INT64 | G_TYPE_DOUBLE
| G_TYPE_STRING.

Definition JsonNodeType_eqb (a b : JsonNodeType) : bool :=
  match a, b with
  | JSON_NODE_OBJECT, JSON_NODE_OBJECT | JSON_NODE_ARRAY, JSON_NODE_ARRAY
  | JSON_NODE_VALUE, JSON_NODE_VALUE | JSON_NODE_NULL, JSON_NODE_NULL => true
  | _, _ => false
  end.

Definition GType_eqb (a b : GType) : bool :=
  match a, b with
  | G_TYPE_INVALID, G_TYPE_INVALID | G_TYPE_BOOLEAN, G_TYPE_BOOLEAN
  | G_TYPE_INT64, G_TYPE_INT64 | G_TYPE_DOUBLE, G_TYPE_DOUBLE
  | G_TYPE_STRING, G_TYPE_STRING => true
  | _, _ => false
  end.

Definition json_node_get_node_type (node : JsonNode) : JsonNodeType :=
  match node with
  | JNull => JSON_NODE_NULL
  | JObject _ => JSON_NODE_OBJECT
  | JArray _ => JSON_NODE_ARRAY
  | JBool _ | JInt _ | JDouble _ | JString _ => JSON_NODE_VALUE
  end.

(** Only called on VALUE nodes by melo_jsonrpc.c. *)
Definition json_node_get_value_type (node : JsonNode) : GType :=
  match node with
  | JBool _ => G_TYPE_BOOLEAN
  | JInt _ => G_TYPE_INT64
  | JDouble _ => G_TYPE_DOUBLE
  | JString _ => G_TYPE_STRING
  | JNull | JObject _ | JArray _ => G_TYPE_INVALID
  end.

(** The C conversion [(gint64) d]: truncation toward zero.  Outside the
    range of gint64 (and for NaN and the infinities) C leaves the result
    undefined; x86-64 yields INT64_MIN, which is what is modelled. *)
Definition INT64_MIN : Z := - 2 ^ 63.
Definition INT64_MAX : Z := 2 ^ 63 - 1.

Definition double_to_int64 (d : float) : Z :=
  match Prim2SF d with
  | S754_zero _ => 0
  | S754_finite s m e =>
      let mag := if 0 <=? e then Z.pos m * 2 ^ e
                 else Z.pos m / 2 ^ (- e) in
      let v := if s then - mag else mag in
      if (INT64_MIN <=? v) && (v <=? INT64_MAX) then v else INT64_MIN
  | S754_infinity _ | S754_nan => INT64_MIN
  end.

(** The C conversion [(gdouble) n]: round to nearest, ties to even. *)
Definition int64_to_double (n : Z) : float :=
  SF2Prim (binary_normalize prec emax n 0 false).

(** [d != 0.0] in C: false for both zeros, true for NaN. *)
Definition double_is_nonzero (d : float) : bool := negb (PrimFloat.eqb d 0%float).

(** [json_node_get_string]: the string of a string node, NULL otherwise. *)
Definition json_node_get_string (node : JsonNode) : option string :=
  match node with
  | JString s => Some s
  | _ => None
  end.

(** [json_node_get_int]: converts doubles and booleans, 0 otherwise. *)
Definition json_node_get_int (node : JsonNode) : Z :=
  match node with
  | JInt n => n
  | JDouble d => double_to_int64 d
  | JBool b => if b then 1 else 0
  | _ => 0
  end.

(** [json_node_get_double]: converts integers and booleans, 0 otherwise. *)
Definition json_node_get_double (node : JsonNode) : float :=
  match node with
  | JDouble d => d
  | JInt n => int64_to_double n
  | JBool b => if b then 1%float else 0%float
  | _ => 0%float
  end.

(** [json_node_get_boolean]: non-zero numbers are TRUE, FALSE otherwise. *)
Definition json_node_get_boolean (node : JsonNode) : bool :=
  match node with
  | JBool b => b
  | JInt n => negb (n =? 0)
  | JDouble d => double_is_nonzero d
  | _ => false
  end.

(** [json_node_get_object] / [json_node_dup_object] (the model has no
    reference counts, so both return the members). *)
Definition json_node_get_object (node : JsonNode) : option JsonObject :=
  match node with
  | JObject o => Some o
  | _ => None
  end.
Definition json_node_dup_object := json_node_get_object.

Definition json_node_get_array (node : JsonNode) : option JsonArray :=
  match node with
  | JArray a => Some a
  | _ => None
  end.
Definition json_node_dup_array := json_node_get_array.

(** [json_object_get_member]: NULL when there is no such member. *)
Fixpoint json_object_get_member (object : JsonObject) (member_name : string)
  : option JsonNode :=
  match object with
  | [] => None
  | (k, v) :: rest =>
      if String.eqb k member_name then Some v
      else json_object_get_member rest member_name
  end.

Definition json_object_has_member (object : JsonObject) (member_name : string)
  : bool :=
  match json_object_get_member object member_name with
  | Some _ => true
  | None => false
  end.

(** [json_object_get_string_member]: NULL for a missing member and for a
    member that is no string. *)
Definition json_object_get_string_member (object : JsonObject)
    (member_name : string) : option string :=
  match json_object_get_member object member_name with
  | Some node => json_node_get_string node
  | None => None
  end.

(** [json_object_get_int_member]: 0 for a missing member, and for a
    member that is an object or an array. *)
Definition json_object_get_int_member (object : JsonObject)
    (member_name : string) : Z :=
  match json_object_get_member object member_name with
  | Some node => json_node_get_int node
  | None => 0
  end.

(** [json_object_set_member]: replaces the value of an existing member in
    place, appends a new member otherwise. *)
Fixpoint json_object_set_member (object : JsonObject) (member_name : string)
    (node : JsonNode) : JsonObject :=
  match object with
  | [] => [(member_name, node)]
  | (k, v) :: rest =>
      if String.eqb k member_name then (k, node) :: rest
      else (k, v) :: json_object_set_member rest member_name node
  end.

(** The typed setters allocate the node themselves; a NULL string, object
    or array is stored as a null node. *)
Definition string_node (value : option string) : JsonNode :=
  match value with Some s => JString s | None => JNull end.
Definition object_node (value : option JsonObject) : JsonNode :=
  match value with Some o => JObject o | None => JNull end.
Definition array_node (value : option JsonArray) : JsonNode :=
  match value with Some a => JArray a | None => JNull end.

Definition json_object_set_boolean_member o name (v : bool) :=
  json_object_set_member o name (JBool v).
Definition json_object_set_int_member o name (v : Z) :=
  json_object_set_member o name (JInt v).
Definition json_object_set_double_member o name (v : float) :=
  json_object_set_member o name (JDouble v).
Definition json_object_set_string_member o name (v : option string) :=
  json_object_set_member o name (string_node v).
Definition json_object_set_object_member o name (v : option JsonObject) :=
  json_object_set_member o name (object_node v).
Definition json_object_set_array_member o name (v : option JsonArray) :=
  json_object_set_member o name (array_node v).

Definition json_array_get_length (array : JsonArray) : nat := length array.

Definition json_array_get_element (array : JsonArray) (index : nat)
  : option JsonNode := array !! index.

Definition json_array_add_element (array : JsonArray) (node : JsonNode)
  : JsonArray := array ++ [node].

Definition json_array_add_boolean_element a (v : bool) :=
  json_array_add_element a (JBool v).
Definition json_array_add_int_element a (v : Z) :=
  json_array_add_element a (JInt v).
Definition json_array_add_double_element a (v : float) :=
  json_array_add_element a (JDouble v).
Definition json_array_add_string_element a (v : option string) :=
  json_array_add_element a (string_node v).
Definition json_array_add_object_element a (v : option JsonObject) :=
  json_array_add_element a (object_node v).
Definition json_array_add_array_element a (v : option JsonArray) :=
  json_array_add_element a (array_node v).

(** What [json_parser_load_from_data] followed by [json_parser_get_root]
    gives: a syntax error (also for a NULL buffer), an empty document
    (success, but no root), or the root node. *)
Inductive parse_result : Type :=
| ParseFailed
| ParseEmpty
| ParseRoot (root : JsonNode).

End JsonGlib.

Export JsonGlib.

(** ** Error codes *)

(** Modelled from the spec: the enumeration [MeloJSONRPCError] is declared in
    melo_jsonrpc.h, which is not among the sources.  The specification fixes
    its five standard members as the codes of JSON-RPC 2.0 and prints two of
    them, -32700 (parse error) and -32601 (method not found). *)
Definition MeloJSONRPCError : Set := Z.
Definition MELO_JSONRPC_ERROR_PARSE_ERROR : MeloJSONRPCError := -32700.
Definition MELO_JSONRPC_ERROR_INVALID_REQUEST : MeloJSONRPCError := -32600.
Definition MELO_JSONRPC_ERROR_METHOD_NOT_FOUND : MeloJSONRPCError := -32601.
Definition MELO_JSONRPC_ERROR_INVALID_PARAMS : MeloJSONRPCError := -32602.
Definition MELO_JSONRPC_ERROR_INTERNAL_ERROR : MeloJSONRPCError := -32603.

(** ** Response and error builder *)

(** A pointer tested in a condition: [if (p)]. *)
Definition non_null {A : Type} (p : option A) : bool :=
  match p with Some _ => true | None => false end.

(** [melo_jsonrpc_build_error_nodev]: every caller in the file passes a
    format without conversion, so the message is the format itself. *)
Definition melo_jsonrpc_build_error_nodev (error_code : MeloJSONRPCError)
    (error_format : string) : JsonNode :=
  let error_message := error_format in
  let obj := [] in
  let obj := json_object_set_int_member obj "code" error_code in
  let obj := json_object_set_string_member obj "message" (Some error_message) in
  JObject obj.

Definition melo_jsonrpc_build_error_node := melo_jsonrpc_build_error_nodev.

(** [melo_jsonrpc_build_response_node].  The JsonBuilder appends the members
    in the order they are added; [json_builder_add_string_value] with a NULL
    string stores a null node. *)
Definition melo_jsonrpc_build_response_node (result error : option JsonNode)
    (id : option string) (nid : Z) : JsonNode :=
  let builder := [] in
  (* Add jsonrpc member *)
  let builder := json_object_set_string_member builder "jsonrpc" (Some "2.0") in
  (* Set result or error *)
  let builder :=
    match error, result with
    | Some error, _ => json_object_set_member builder "error" error
    | None, Some result => json_object_set_member builder "result" result
    | None, None => builder
    end in
  (* Add id member: we assume ID cannot be negative *)
  let builder :=
    if (nid <? 0) || non_null id
    then json_object_set_string_member builder "id" id
    else json_object_set_int_member builder "id" nid in
  JObject builder.

Definition melo_jsonrpc_build_error (id : option string) (nid : Z)
    (error_code : MeloJSONRPCError) (error_format : string) : JsonNode :=
  let node := melo_jsonrpc_build_error_nodev error_code error_format in
  melo_jsonrpc_build_response_node None (Some node) id nid.

(** ** Registered methods *)

(** An opaque [gpointer]: the address is never dereferenced here. *)
Definition gpointer : Set := Z.
Definition NULL : gpointer := 0.

(** [MeloJSONRPCCallback]: called as
    [callback (method, s_params, params, &result, &error, user_data)] with
    [result] and [error] both NULL; it returns what it stored in them.
    [World] is the part of the process a callback can read and change. *)
Definition MeloJSONRPCCallback (World : Type) : Type :=
  string -> option JsonArray -> option JsonNode -> gpointer ->
  World -> World * option JsonNode * option JsonNode.

(** Modelled from the spec: the public [MeloJSONRPCMethod] of
    melo_jsonrpc.h, which is not among the sources; its fields are the ones
    [melo_jsonrpc_register_methods] reads.  The two schemas are JSON text
    (or NULL). *)
Module Method.
Record MeloJSONRPCMethod {World : Type} : Type := {
  method : string;
  params : option string;
  result : option string;
  callback : option (MeloJSONRPCCallback World);
  user_data : gpointer;
}.
Arguments MeloJSONRPCMethod : clear implicits.
End Method.
Abbreviation MeloJSONRPCMethod := Method.MeloJSONRPCMethod.

Section Melo.

Context {World : Type}.

Local Abbreviation MeloJSONRPCCallback := (MeloJSONRPCCallback World).

Record MeloJSONRPCInternalMethod : Type := {
  (* Schema nodes *)
  params : option JsonArray;
  result : option JsonObject;
  (* Callback *)
  callback : option MeloJSONRPCCallback;
  user_data : gpointer;
}.

(** The static [melo_jsonrpc_methods]: NULL, or a table keyed by the
    complete method name. *)
Local Abbreviation methods_table := (gmap string MeloJSONRPCInternalMethod).
Local Abbreviation registry := (option (gmap string MeloJSONRPCInternalMethod)).

(** [g_strdup_printf ("%s.%s", group, method)] *)
Definition complete_method_name (group method : string) : string :=
  group +:+ "." +:+ method.

(** [g_hash_table_lookup] on the global table, which may be NULL. *)
Definition registry_lookup (melo_jsonrpc_methods : registry) (name : string)
  : option MeloJSONRPCInternalMethod :=
  match melo_jsonrpc_methods with
  | Some table => table !! name
  | None => None
  end.

(** [melo_jsonrpc_register_method]: the new value of the global table and
    the returned gboolean.  [g_slice_new] does not fail (GLib aborts when
    memory is exhausted). *)
Definition melo_jsonrpc_register_method (melo_jsonrpc_methods : registry)
    (group method : string) (params : option JsonArray)
    (result : option JsonObject) (callback : option MeloJSONRPCCallback)
    (user_data : gpointer) : registry * bool :=
  (* Create complete method *)
  let complete_method := complete_method_name group method in
  (* Create hash table if not yet created *)
  let table : methods_table :=
    match melo_jsonrpc_methods with
    | Some table => table
    | None => ∅
    end in
  (* Method already exists *)
  match table !! complete_method with
  | Some _ => (Some table, false)
  | None =>
      (* Fill handler *)
      let m := {| params := params; result := result;
                  callback := callback; user_data := user_data |} in
      (* Add method *)
      (Some (<[complete_method := m]> table), true)
  end.

(** [melo_jsonrpc_unregister_method].  On a NULL table GLib's argument
    checks turn [g_hash_table_remove] and [g_hash_table_unref] into no-ops
    and make [g_hash_table_size] return 0. *)
Definition melo_jsonrpc_unregister_method (melo_jsonrpc_methods : registry)
    (group method : string) : registry :=
  (* Create complete method *)
  let complete_method := complete_method_name group method in
  (* Remove method *)
  let removed : registry :=
    match melo_jsonrpc_methods with
    | Some table => Some (delete complete_method table)
    | None => None
    end in
  (* Free hash table if empty *)
  match removed with
  | Some table => if (size table =? 0)%nat then None else Some table
  | None => None
  end.

(** ** Request processor *)

Definition invalid_request_response : JsonNode :=
  melo_jsonrpc_build_error None (-1) MELO_JSONRPC_ERROR_INVALID_REQUEST
    "Invalid request".

Definition method_not_found_response (id : option string) (nid : Z) : JsonNode :=
  melo_jsonrpc_build_error id nid MELO_JSONRPC_ERROR_METHOD_NOT_FOUND
    "Method not found".

(** [melo_jsonrpc_parse_node]: the state left by the callback and the
    response node (NULL for a notification).  The labels [invalid] and
    [not_found] are the two definitions above; [internal] needs an object
    node without object, which a parsed document never has. *)
Definition melo_jsonrpc_parse_node (melo_jsonrpc_methods : registry)
    (node : JsonNode) (w : World) : World * option JsonNode :=
  let invalid := (w, Some invalid_request_response) in
  (* Not an object *)
  match node with
  | JObject obj =>
    (* Check if jsonrpc is present *)
    if negb (json_object_has_member obj "jsonrpc") then invalid else
    (* Check JSON-RPC version *)
    match json_object_get_string_member obj "jsonrpc" with
    | None => invalid
    | Some version =>
    if negb (String.eqb version "2.0") then invalid else
    (* Check if method is present *)
    if negb (json_object_has_member obj "method") then invalid else
    (* Get method *)
    match json_object_get_string_member obj "method" with
    | None => invalid
    | Some method =>
    (* Get params *)
    let params := json_object_get_member obj "params" in
    (* Check params type: only object or array allowed *)
    if match params with
       | Some p =>
           let type := json_node_get_node_type p in
           negb (JsonNodeType_eqb type JSON_NODE_ARRAY)
           && negb (JsonNodeType_eqb type JSON_NODE_OBJECT)
       | None => false
       end
    then invalid else
    (* Get registered method *)
    let '(callback, user_data, s_params) :=
      match registry_lookup melo_jsonrpc_methods method with
      | Some m => (callback m, user_data m, Melo.params m)
      | None => (None, NULL, None)
      end in
    (* Check if id is present *)
    if negb (json_object_has_member obj "id") then
      (* This is a notification: try to call callback *)
      match callback with
      | Some callback =>
          let '(w', _, _) := callback method s_params params user_data w in
          (w', None)
      | None => (w, None)
      end
    else
    (* Get id *)
    let nid := json_object_get_int_member obj "id" in
    let id := json_object_get_string_member obj "id" in
    match callback with
    (* No callback provided *)
    | None => (w, Some (method_not_found_response id nid))
    | Some callback =>
        (* Call user callback *)
        let '(w', result, error) := callback method s_params params user_data w in
        match error, result with
        (* No error or result *)
        | None, None => (w', Some (method_not_found_response id nid))
        (* Build response *)
        | _, _ => (w', Some (melo_jsonrpc_build_response_node result error id nid))
        end
    end
    end
    end
  | _ => invalid
  end.

(** ** Bulk registration and the top-level dispatcher *)

Section Transport.

(** json-glib's parser and generator work on text; they are taken as they
    come.  [json_parser_load_from_data] stands for the load followed by
    [json_parser_get_root]. *)
Variable json_parser_load_from_data : string -> parse_result.
Variable json_generator_to_data : JsonNode -> string.

(** A schema of a [MeloJSONRPCMethod] may be NULL, which the parser rejects. *)
Definition load_schema (data : option string) : parse_result :=
  match data with
  | Some data => json_parser_load_from_data data
  | None => ParseFailed
  end.

(** One iteration of the loop of [melo_jsonrpc_register_methods]: [continue]
    leaves both the table and [errors] as they are.  An empty document
    loads, and the type of its missing root node reads as JSON_NODE_NULL. *)
Definition register_methods_step (group : string) (m : MeloJSONRPCMethod World)
    (melo_jsonrpc_methods : registry) (errors : nat) : registry * nat :=
  let skip := (melo_jsonrpc_methods, errors) in
  let register (params : option JsonArray) (result : option JsonObject) :=
    (* Register method *)
    let '(methods', ret) :=
      melo_jsonrpc_register_method melo_jsonrpc_methods group (Method.method m)
        params result (Method.callback m) (Method.user_data m) in
    (* Failed to register method *)
    if negb ret then (methods', S errors) else (methods', errors) in
  let with_params (params : option JsonArray) :=
    (* Generate result schema *)
    match load_schema (Method.result m) with
    | ParseRoot node =>
        (* Node result type must be an object *)
        if negb (JsonNodeType_eqb (json_node_get_node_type node) JSON_NODE_OBJECT)
        then skip
        else register params (json_node_dup_object node)
    | ParseEmpty => skip
    | ParseFailed => register params None
    end in
  (* Generate params schema *)
  match load_schema (Method.params m) with
  | ParseRoot node =>
      (* Node params type must be an array *)
      if negb (JsonNodeType_eqb (json_node_get_node_type node) JSON_NODE_ARRAY)
      then skip
      else with_params (json_node_dup_array node)
  | ParseEmpty => skip
  | ParseFailed => with_params None
  end.

Fixpoint register_methods_loop (group : string)
    (methods : list (MeloJSONRPCMethod World))
    (melo_jsonrpc_methods : registry) (errors : nat) : registry * nat :=
  match methods with
  | [] => (melo_jsonrpc_methods, errors)
  | m :: rest =>
      let '(methods', errors') :=
        register_methods_step group m melo_jsonrpc_methods errors in
      register_methods_loop group rest methods' errors'
  end.

(** [melo_jsonrpc_register_methods]; [count] is the length of [methods]. *)
Definition melo_jsonrpc_register_methods (melo_jsonrpc_methods : registry)
    (group : string) (methods : list (MeloJSONRPCMethod World))
  : registry * nat :=
  register_methods_loop group methods melo_jsonrpc_methods 0%nat.

(** [melo_jsonrpc_unregister_methods] *)
Fixpoint melo_jsonrpc_unregister_methods (melo_jsonrpc_methods : registry)
    (group : string) (methods : list (MeloJSONRPCMethod World)) : registry :=
  match methods with
  | [] => melo_jsonrpc_methods
  | m :: rest =>
      melo_jsonrpc_unregister_methods
        (melo_jsonrpc_unregister_method melo_jsonrpc_methods group
           (Method.method m))
        group rest
  end.

Definition melo_jsonrpc_node_to_string (node : JsonNode) : string :=
  json_generator_to_data node.

Definition melo_jsonrpc_build_error_str (error_code : MeloJSONRPCError)
    (error_format : string) : string :=
  let node := melo_jsonrpc_build_error_nodev error_code error_format in
  let node := melo_jsonrpc_build_response_node None (Some node) None (-1) in
  melo_jsonrpc_node_to_string node.

(** The batch loop of [melo_jsonrpc_parse_request], over the elements from
    index [i] on. *)
Fixpoint parse_batch (melo_jsonrpc_methods : registry)
    (elements : list JsonNode) (res_array : JsonArray) (w : World)
  : World * JsonArray :=
  match elements with
  | [] => (w, res_array)
  | node :: rest =>
      (* Process request *)
      let '(w', node) := melo_jsonrpc_parse_node melo_jsonrpc_methods node w in
      (* Add new response to array *)
      let res_array :=
        match node with
        | Some node => json_array_add_element res_array node
        | None => res_array
        end in
      parse_batch melo_jsonrpc_methods rest res_array w'
  end.

(** [melo_jsonrpc_parse_request]: the state after the callbacks ran and the
    returned string, NULL when there is nothing to answer. *)
Definition melo_jsonrpc_parse_request (melo_jsonrpc_methods : registry)
    (request : string) (w : World) : World * option string :=
  let invalid :=
    (w, Some (melo_jsonrpc_build_error_str MELO_JSONRPC_ERROR_INVALID_REQUEST
                "Invalid request")) in
  (* Parse request *)
  match json_parser_load_from_data request with
  | ParseFailed | ParseEmpty =>
      (w, Some (melo_jsonrpc_build_error_str MELO_JSONRPC_ERROR_PARSE_ERROR
                  "Parse error"))
  | ParseRoot req =>
      match req with
      | JObject _ =>
          (* Parse single request *)
          let '(w', res) := melo_jsonrpc_parse_node melo_jsonrpc_methods req w in
          match res with
          (* No response *)
          | None => (w', None)
          | Some res => (w', Some (melo_jsonrpc_node_to_string res))
          end
      | JArray req_array =>
          (* Parse multiple requests: batch *)
          let count := json_array_get_length req_array in
          if (count =? 0)%nat then invalid else
          let '(w', res_array) :=
            parse_batch melo_jsonrpc_methods req_array [] w in
          (* Check if array is empty *)
          let count := json_array_get_length res_array in
          if (count =? 0)%nat then (w', None)
          else (w', Some (melo_jsonrpc_node_to_string (JArray res_array)))
      | _ => invalid
      end
  end.

End Transport.

End Melo.

(** ** Parameter validator *)

(** The caller's [JsonNode **error]: no slot at all ([None]), an empty slot
    ([Some None]) or a slot that already holds an error. *)
Abbreviation error_slot := (option (option JsonNode)).

(** [if (error && *error == NULL) *error = melo_jsonrpc_build_error_node (...)] *)
Definition set_error (error : error_slot) (error_code : MeloJSONRPCError)
    (error_format : string) : error_slot :=
  match error with
  | Some None => Some (Some (melo_jsonrpc_build_error_node error_code error_format))
  | _ => error
  end.

(** [s_type[0]]; the empty C string starts with its terminating NUL. *)
Definition first_char (s : string) : ascii :=
  match s with
  | String c _ => c
  | EmptyString => Ascii.zero
  end.

(** [if (obj || array) { if (obj) set... else add... }] *)
Definition add_to (obj : option JsonObject) (array : option JsonArray)
    (set_member : JsonObject -> JsonObject)
    (add_element : JsonArray -> JsonArray)
  : option JsonObject * option JsonArray :=
  match obj, array with
  | Some o, _ => (Some (set_member o), array)
  | None, Some a => (None, Some (add_element a))
  | None, None => (None, None)
  end.

(** [melo_jsonrpc_add_node]: [None] is FALSE, otherwise the filled [obj] and
    [array]. *)
Definition melo_jsonrpc_add_node (node : JsonNode) (schema : JsonObject)
    (obj : option JsonObject) (array : option JsonArray)
  : option (option JsonObject * option JsonArray) :=
  (* Get name and type from schema *)
  match json_object_get_string_member schema "name",
        json_object_get_string_member schema "type" with
  | Some s_name, Some s_type =>
    (* Get type *)
    let type := json_node_get_node_type node in
    let vtype :=
      if JsonNodeType_eqb type JSON_NODE_VALUE
      then json_node_get_value_type node else G_TYPE_INVALID in
    (* Check type: We check only first letter of the type string. *)
    let c := first_char s_type in
    if Ascii.eqb c "b" then
      (* Boolean: check type *)
      if negb (GType_eqb vtype G_TYPE_BOOLEAN) then None else
      let v := json_node_get_boolean node in
      Some (add_to obj array
              (fun o => json_object_set_boolean_member o s_name v)
              (fun a => json_array_add_boolean_element a v))
    else if Ascii.eqb c "i" then
      (* Integer: check type *)
      if negb (GType_eqb vtype G_TYPE_INT64) then None else
      let v := json_node_get_int node in
      Some (add_to obj array
              (fun o => json_object_set_int_member o s_name v)
              (fun a => json_array_add_int_element a v))
    else if Ascii.eqb c "d" then
      (* Double: check type *)
      if negb (GType_eqb vtype G_TYPE_DOUBLE) then None else
      let v := json_node_get_double node in
      Some (add_to obj array
              (fun o => json_object_set_double_member o s_name v)
              (fun a => json_array_add_double_element a v))
    else if Ascii.eqb c "s" then
      (* String: check type *)
      if negb (GType_eqb vtype G_TYPE_STRING) then None else
      let v := json_node_get_string node in
      Some (add_to obj array
              (fun o => json_object_set_string_member o s_name v)
              (fun a => json_array_add_string_element a v))
    else if Ascii.eqb c "o" then
      (* Object: check type *)
      if negb (JsonNodeType_eqb type JSON_NODE_OBJECT) then None else
      let v := json_node_dup_object node in
      Some (add_to obj array
              (fun o => json_object_set_object_member o s_name v)
              (fun a => json_array_add_object_element a v))
    else if Ascii.eqb c "a" then
      (* Array: check type *)
      if negb (JsonNodeType_eqb type JSON_NODE_ARRAY) then None else
      let v := json_node_dup_array node in
      Some (add_to obj array
              (fun o => json_object_set_array_member o s_name v)
              (fun a => json_array_add_array_element a v))
    else None
  | _, _ => None
  end.

(** What a loop of [melo_jsonrpc_get_json_node] ends in: [None] is
    [goto failed]; otherwise the function returns TRUE, either because the
    loop ran to its end or because it stopped at a missing optional
    parameter, with [obj] and [array] as filled so far. *)
Abbreviation walk_exit := (option (option JsonObject * option JsonArray)).

(** The loop over an object [o] of parameters.  The recursion is on the
    elements of [schema_params] from index [i] on;
    [json_array_get_object_element (schema_params, i)] is the object of
    the head, NULL when the head is no object. *)
Fixpoint object_loop (o : JsonObject) (schema_params : list JsonNode)
    (obj : option JsonObject) (array : option JsonArray) : walk_exit :=
  match schema_params with
  | [] => Some (obj, array)
  | element :: rest =>
    (* Get next schema object *)
    match json_node_get_object element with
    | None => None
    | Some schema =>
    (* Get parameter name *)
    match json_object_get_string_member schema "name" with
    | None => None
    | Some name =>
    (* Get node *)
    match json_object_get_member o name with
    | Some node =>
        (* Check node type *)
        match melo_jsonrpc_add_node node schema obj array with
        | None => None
        | Some (obj, array) => object_loop o rest obj array
        end
    | None =>
        (* Get required flag: failed if not defined or TRUE *)
        match json_object_get_member schema "required" with
        | None => None
        | Some node =>
        if json_node_get_boolean node then None else
        (* When not required:
             - skip when converting to an object,
             - stop when converting to an array. *)
        if non_null obj then object_loop o rest obj array
        else if non_null array then Some (obj, array)
        else
          (* Neither: [node], now the required flag, goes on to the check *)
          match melo_jsonrpc_add_node node schema obj array with
          | None => None
          | Some (obj, array) => object_loop o rest obj array
          end
        end
    end
    end
    end
  end.

(** The loop over an array [a] of parameters, at index [i]. *)
Fixpoint array_loop (a : JsonArray) (params_count : nat)
    (schema_params : list JsonNode) (i : nat)
    (obj : option JsonObject) (array : option JsonArray) : walk_exit :=
  match schema_params with
  | [] => Some (obj, array)
  | element :: rest =>
    (* Get next schema object *)
    match json_node_get_object element with
    | None => None
    | Some schema =>
    (* No more parameters available *)
    if (params_count <=? i)%nat then
      (* Get required flag: failed if not defined or TRUE *)
      match json_object_get_member schema "required" with
      | None => None
      | Some node =>
          if json_node_get_boolean node then None
          (* If this parameter was not required: stop conversion *)
          else Some (obj, array)
      end
    else
    (* Get node *)
    match json_array_get_element a i with
    | None => None
    | Some node =>
        (* Check node type *)
        match melo_jsonrpc_add_node node schema obj array with
        | None => None
        | Some (obj, array) => array_loop a params_count rest (S i) obj array
        end
    end
    end
  end.

(** [melo_jsonrpc_get_json_node]: [None] for FALSE, the filled [obj] and
    [array] for TRUE, and the error slot.  On FALSE every caller releases
    [obj] and [array], so what they held is not returned. *)
Definition melo_jsonrpc_get_json_node (schema_params : option JsonArray)
    (params : option JsonNode) (obj : option JsonObject)
    (array : option JsonArray) (error : error_slot) : walk_exit * error_slot :=
  (* Check schema *)
  match schema_params with
  | None => (None, error)
  | Some schema_params =>
  (* No params to check *)
  match params with
  | None =>
      (None, set_error error MELO_JSONRPC_ERROR_INVALID_REQUEST "Invalid request")
  | Some params =>
  let failed :=
    (None, set_error error MELO_JSONRPC_ERROR_INVALID_PARAMS "Invalid params") in
  match params with
  (* Already an object *)
  | JObject o =>
      match object_loop o schema_params obj array with
      | None => failed
      | Some out => (Some out, error)
      end
  | JArray a =>
      let params_count := json_array_get_length a in
      match array_loop a params_count schema_params 0%nat obj array with
      | None => failed
      | Some out => (Some out, error)
      end
  | _ => (Some (obj, array), error)
  end
  end
  end.

(** [melo_jsonrpc_check_params] *)
Definition melo_jsonrpc_check_params (schema_params : option JsonArray)
    (params : option JsonNode) (error : error_slot) : bool * error_slot :=
  let '(ret, error) :=
    melo_jsonrpc_get_json_node schema_params params None None error in
  (non_null ret, error).

(** [melo_jsonrpc_get_object]: the new object, or NULL. *)
Definition melo_jsonrpc_get_object (schema_params : option JsonArray)
    (params : option JsonNode) (error : error_slot)
  : option JsonObject * error_slot :=
  (* Allocate new object *)
  let obj : JsonObject := [] in
  (* Get node *)
  match melo_jsonrpc_get_json_node schema_params params (Some obj) None error with
  | (Some (obj, _), error) => (obj, error)
  | (None, error) => (None, error)
  end.

(** [melo_jsonrpc_get_array]: the new array, or NULL. *)
Definition melo_jsonrpc_get_array (schema_params : option JsonArray)
    (params : option JsonNode) (error : error_slot)
  : option JsonArray * error_slot :=
  (* Allocate new array *)
  let array : JsonArray := [] in
  (* Get array *)
  match melo_jsonrpc_get_json_node schema_params params None (Some array) error with
  | (Some (_, array), error) => (array, error)
  | (None, error) => (None, error)
  end.

(** ** Vocabulary of the specification *)

(** The shape of [params] a request may carry: none, an object or an
    array. *)
Definition params_shape_ok (params : option JsonNode) : bool :=
  match params with
  | None | Some (JObject _) | Some (JArray _) => true
  | Some _ => false
  end.

(** A Wire Request of the specification's data model: the members of an
    object with the literal version "2.0", a string [method] and, when
    present, [params] of an allowed shape; [id] is optional. *)
Definition is_request (obj : JsonObject) : bool :=
  match json_object_get_member obj "jsonrpc",
        json_object_get_member obj "method" with
  | Some (JString version), Some (JString _) =>
      String.eqb version "2.0"
      && params_shape_ok (json_object_get_member obj "params")
  | _, _ => false
  end.

(** The [id] member of a response envelope. *)
Definition response_id (response : option JsonNode) : option JsonNode :=
  match response with
  | Some (JObject envelope) => json_object_get_member envelope "id"
  | _ => None
  end.

(** The ids the data model allows: a string or an integer. *)
Definition is_id (id : JsonNode) : bool :=
  match id with
  | JString _ | JInt _ => true
  | _ => false
  end.

(** The id a response carries for a request with the id [id]: a string as
    it is; any other value as the integer json-glib reads it as, and null
    when that integer is negative. *)
Definition echoed_id (id : JsonNode) : JsonNode :=
  match id with
  | JString s => JString s
  | _ =>
      let n := json_node_get_int id in
      if n <? 0 then JNull else JInt n
  end.

Section Vocabulary.

Context {World : Type}.

Local Abbreviation registry :=
  (option (gmap string (@MeloJSONRPCInternalMethod World))).

(** The first testable property, word for word: the response to a request
    with an id carries that very id. *)
Definition id_echoed_verbatim (melo_jsonrpc_methods : registry)
    (obj : JsonObject) (w : World) : Prop :=
  forall id,
    is_request obj = true ->
    json_object_get_member obj "id" = Some id ->
    is_id id = true ->
    response_id (melo_jsonrpc_parse_node melo_jsonrpc_methods (JObject obj) w).2
    = Some id.

(** The responses of the elements of a batch, one per element and in the
    order of the elements, each element being processed on its own in the
    state its predecessors left; [None] where an element has no response. *)
Fixpoint element_responses (melo_jsonrpc_methods : registry)
    (elements : list JsonNode) (w : World) : World * list (option JsonNode) :=
  match elements with
  | [] => (w, [])
  | element :: rest =>
      let '(w1, response) :=
        melo_jsonrpc_parse_node melo_jsonrpc_methods element w in
      let '(w2, responses) := element_responses melo_jsonrpc_methods rest w1 in
      (w2, response :: responses)
  end.

(** The names the table holds, as the hash table would list them. *)
Definition registered_names (melo_jsonrpc_methods : registry) : list string :=
  match melo_jsonrpc_methods with
  | Some table => (map_to_list table).*1
  | None => []
  end.

Definition registry_size (melo_jsonrpc_methods : registry) : nat :=
  match melo_jsonrpc_methods with
  | Some table => size table
  | None => 0%nat
  end.

(** The table pointer is NULL whenever the table would be empty: true of
    the initial state and after every register and unregister call. *)
Definition registry_wf (melo_jsonrpc_methods : registry) : Prop :=
  melo_jsonrpc_methods <> Some ∅.

End Vocabulary.

(** The JSON types a parameter can have on the wire. *)
Inductive json_kind : Set :=
| KNull | KBoolean | KInteger | KDouble | KString | KObject | KArray.

Definition kind_of (node : JsonNode) : json_kind :=
  match node with
  | JNull => KNull
  | JBool _ => KBoolean
  | JInt _ => KInteger
  | JDouble _ => KDouble
  | JString _ => KString
  | JObject _ => KObject
  | JArray _ => KArray
  end.

Definition json_kind_eqb (a b : json_kind) : bool :=
  match a, b with
  | KNull, KNull | KBoolean, KBoolean | KInteger, KInteger
  | KDouble, KDouble | KString, KString | KObject, KObject
  | KArray, KArray => true
  | _, _ => false
  end.

(** The type a schema entry declares.  The six type names of the data
    model start with six different letters, and the first letter is all
    the validator reads of a name. *)
Definition declared_kind (s_type : string) : option json_kind :=
  let c := first_char s_type in
  if Ascii.eqb c "b" then Some KBoolean
  else if Ascii.eqb c "i" then Some KInteger
  else if Ascii.eqb c "d" then Some KDouble
  else if Ascii.eqb c "s" then Some KString
  else if Ascii.eqb c "o" then Some KObject
  else if Ascii.eqb c "a" then Some KArray
  else None.

(** The JSON type of [node] is exactly the type [schema] declares. *)
Definition type_matches (schema : JsonObject) (node : JsonNode) : bool :=
  match json_object_get_string_member schema "type" with
  | Some s_type =>
      match declared_kind s_type with
      | Some kind => json_kind_eqb kind (kind_of node)
      | None => false
      end
  | None => false
  end.

(** The wire value of the schema entry at position [i] with name [name]:
    by name in an object of parameters, by position in an array. *)
Definition value_at (params : JsonNode) (i : nat) (name : string)
  : option JsonNode :=
  match params with
  | JObject o => json_object_get_member o name
  | JArray a => a !! i
  | _ => None
  end.

(** Every schema entry before position [i] has its wire value. *)
Definition no_gap_before (params : JsonNode) (schema_params : JsonArray)
    (i : nat) : Prop :=
  forall j schema name,
    (j < i)%nat ->
    schema_params !! j = Some (JObject schema) ->
    json_object_get_string_member schema "name" = Some name ->
    value_at params j name <> None.

(** A schema entry is required unless its [required] member says false. *)
Definition entry_required (element : JsonNode) : bool :=
  match json_node_get_object element with
  | Some schema =>
      match json_object_get_member schema "required" with
      | Some node => json_node_get_boolean node
      | None => true
      end
  | None => true
  end.

Definition required_entries (schema_params : JsonArray) : nat :=
  length (List.filter entry_required schema_params).

(** The second core walk rule, word for word: without any wire value the
    validator succeeds when the schema has no required entry. *)
Definition succeeds_without_params (schema_params : JsonArray) : Prop :=
  required_entries schema_params = 0%nat ->
  (melo_jsonrpc_check_params (Some schema_params) None (Some None)).1 = true.

(** The fifth core walk rule, word for word, for the conversion to an
    array: it succeeds only if every wire value that is present has the
    type its schema entry declares. *)
Definition present_values_type_checked (schema_params : JsonArray)
    (params : JsonNode) : Prop :=
  forall i schema name v,
    schema_params !! i = Some (JObject schema) ->
    json_object_get_string_member schema "name" = Some name ->
    value_at params i name = Some v ->
    (melo_jsonrpc_get_array (Some schema_params) (Some params) (Some None)).1
    <> None ->
    type_matches schema v = true.

(** The schema a method is registered with, read from what its schema text
    loads to.  Text that is no JSON at all gives no schema ([Some None]);
    JSON of the expected shape gives that schema; JSON of another shape, or
    an empty document, makes the bulk registration pass over the entry
    ([None]). *)
Definition params_schema (loaded : parse_result) : option (option JsonArray) :=
  match loaded with
  | ParseFailed => Some None
  | ParseRoot (JArray a) => Some (Some a)
  | ParseRoot _ | ParseEmpty => None
  end.

Definition result_schema (loaded : parse_result) : option (option JsonObject) :=
  match loaded with
  | ParseFailed => Some None
  | ParseRoot (JObject o) => Some (Some o)
  | ParseRoot _ | ParseEmpty => None
  end.

Definition entry_schemas {World : Type}
    (json_parser_load_from_data : string -> parse_result)
    (m : MeloJSONRPCMethod World)
  : option (option JsonArray * option JsonObject) :=
  match params_schema (load_schema json_parser_load_from_data (Method.params m)),
        result_schema (load_schema json_parser_load_from_data (Method.result m))
  with
  | Some params, Some result => Some (params, result)
  | _, _ => None
  end.


(** ** Concrete inputs *)

(** [{"jsonrpc":"2.0","method":"foo.bar","id":-1}] *)
Definition negative_id_request : JsonObject :=
  [("jsonrpc", JString "2.0"); ("method", JString "foo.bar"); ("id", JInt (-1))].

(** [{"name":"a","type":"int","required":false}] *)
Definition optional_int_entry : JsonNode :=
  JObject [("name", JString "a"); ("type", JString "int");
           ("required", JBool false)].

(** [{"name":"b","type":"int"}] *)
Definition required_int_entry : JsonNode :=
  JObject [("name", JString "b"); ("type", JString "int")].

(** [{"jsonrpc":"2.0","method":"player.play"}] *)
Definition notification_request : JsonObject :=
  [("jsonrpc", JString "2.0"); ("method", JString "player.play")].

(** [{"jsonrpc":"2.0","method":"player.play","id":7}] *)
Definition call_request : JsonObject :=
  [("jsonrpc", JString "2.0"); ("method", JString "player.play");
   ("id", JInt 7)].

(** A stand-in for the parser of json-glib that knows three texts: the
    empty array, the empty object, and [batch], which stands for the text
    of the array of the two requests above; it rejects anything else. *)
Definition example_parser (data : string) : parse_result :=
  if String.eqb data "[]" then ParseRoot (JArray [])
  else if String.eqb data "{}" then ParseRoot (JObject [])
  else if String.eqb data "batch"
  then ParseRoot (JArray [JObject notification_request; JObject call_request])
  else ParseFailed.

(** A stand-in for the generator, good enough to tell envelopes apart. *)
Definition example_generator (node : JsonNode) : string :=
  match node with
  | JArray _ => "[...]"
  | JObject _ => "{...}"
  | _ => "?"
  end.

(** A generator for the examples.  It writes a value as json-glib does,
    without blanks, except that it puts names and strings between
    apostrophes and stands in [<double>] for every floating number. *)
Fixpoint example_serializer (node : JsonNode) : string :=
  match node with
  | JNull => "null"
  | JBool b => if b then "true" else "false"
  | JInt n => pretty n
  | JDouble _ => "<double>"
  | JString s => "'" +:+ s +:+ "'"
  | JObject members =>
      "{" +:+
      (fix members_text (ms : list (string * JsonNode)) : string :=
         match ms with
         | [] => ""
         | (name, value) :: rest =>
             "'" +:+ name +:+ "':" +:+ example_serializer value +:+
             match rest with
             | [] => ""
             | _ :: _ => "," +:+ members_text rest
             end
         end) members +:+ "}"
  | JArray elements =>
      "[" +:+
      (fix elements_text (es : list JsonNode) : string :=
         match es with
         | [] => ""
         | value :: rest =>
             example_serializer value +:+
             match rest with
             | [] => ""
             | _ :: _ => "," +:+ elements_text rest
             end
         end) elements +:+ "]"
  end.

(** A callback on a counter of calls: it counts, and reports an error. *)
Definition counting_callback : MeloJSONRPCCallback nat :=
  fun method s_params params user_data w =>
    (S w, None, Some (melo_jsonrpc_build_error_node (-1) "failed")).

Definition counting_method : @MeloJSONRPCInternalMethod nat :=
  {| params := None; result := None;
     callback := Some counting_callback; user_data := NULL |}.

(** The table after [melo_jsonrpc_register_method ("player", "play", ...)]. *)
Definition example_registry : option (gmap string (@MeloJSONRPCInternalMethod nat)) :=
  Some {[ "player.play" := counting_method ]}.

(** An entry of a bulk registration whose params schema is an object:
    [{ "play", "{}", "{}", counting_callback, NULL }] *)
Definition wrong_shape_entry : MeloJSONRPCMethod nat :=
  {| Method.method := "play"; Method.params := Some "{}";
     Method.result := Some "{}";
     Method.callback := Some counting_callback; Method.user_data := NULL |}.

(** [{ "play", "no json", NULL, counting_callback, NULL }] *)
Definition unparsable_entry : MeloJSONRPCMethod nat :=
  {| Method.method := "play"; Method.params := Some "no json";
     Method.result := None;
     Method.callback := Some counting_callback; Method.user_data := NULL |}.

(** ** Further vocabulary *)

(** A request without [id]. *)
Definition is_notification (node : JsonNode) : bool :=
  match node with
  | JObject obj => is_request obj && negb (json_object_has_member obj "id")
  | _ => false
  end.

(** A response envelope: an object with the version "2.0", an [id] member
    and either a [result] or an [error] member, not both. *)
Definition is_envelope (node : JsonNode) : bool :=
  match node with
  | JObject envelope =>
      match json_object_get_member envelope "jsonrpc" with
      | Some (JString version) => String.eqb version "2.0"
      | _ => false
      end
      && json_object_has_member envelope "id"
      && xorb (json_object_has_member envelope "result")
              (json_object_has_member envelope "error")
  | _ => false
  end.

(** The name of a schema entry. *)
Definition entry_name (element : JsonNode) : option string :=
  match json_node_get_object element with
  | Some schema => json_object_get_string_member schema "name"
  | None => None
  end.

(** The names of the entries of a schema, in order. *)
Definition schema_names (schema_params : JsonArray) : list string :=
  omap entry_name schema_params.

(** An entry that can be checked against [node]: an object with a name whose
    declared type is the type of [node]. *)
Definition entry_accepts (element : JsonNode) (node : JsonNode) : bool :=
  match json_node_get_object element with
  | Some schema =>
      non_null (json_object_get_string_member schema "name")
      && type_matches schema node
  | None => false
  end.

(** An entry that may lack its wire value: an object whose [required]
    member is there and reads as false. *)
Definition entry_optional (element : JsonNode) : bool :=
  match json_node_get_object element with
  | Some schema =>
      match json_object_get_member schema "required" with
      | Some node => negb (json_node_get_boolean node)
      | None => false
      end
  | None => false
  end.

Section MoreVocabulary.

Context {World : Type}.

(** The call of a callback that a request leads to: the callback of the
    method the request names, applied to that name, the registered schema,
    the [params] of the request and the registered user data. *)
Definition request_call
    (melo_jsonrpc_methods : option (gmap string (@MeloJSONRPCInternalMethod World)))
    (node : JsonNode)
  : option (World -> World * option JsonNode * option JsonNode) :=
  match node with
  | JObject obj =>
      if is_request obj then
        match json_object_get_string_member obj "method" with
        | Some method =>
            match registry_lookup melo_jsonrpc_methods method with
            | Some m =>
                match callback m with
                | Some cb =>
                    Some (cb method (params m)
                            (json_object_get_member obj "params") (user_data m))
                | None => None
                end
            | None => None
            end
        | None => None
        end
      else None
  | _ => None
  end.

End MoreVocabulary.

(** The complete names of the entries of a bulk call. *)
Definition bulk_names {World : Type} (group : string)
    (methods : list (MeloJSONRPCMethod World)) : list string :=
  map (fun m => complete_method_name group (Method.method m)) methods.

(** What the conversion to an object asks of a schema entry, given an
    object [o] of parameters: a name, and either a value of the declared
    type or the permission to lack one. *)
Definition keyed_entry_ok (o : JsonObject) (element : JsonNode) : bool :=
  match entry_name element with
  | Some name =>
      match json_object_get_member o name with
      | Some node => entry_accepts element node
      | None => entry_optional element
      end
  | None => false
  end.

(** The values of the entries of a schema in an object [o] of parameters,
    in the order of the schema, up to the first entry without value. *)
Fixpoint prefix_values (o : JsonObject) (schema_params : list JsonNode)
  : list JsonNode :=
  match schema_params with
  | [] => []
  | element :: rest =>
      match entry_name element with
      | Some name =>
          match json_object_get_member o name with
          | Some node => node :: prefix_values o rest
          | None => []
          end
      | None => []
      end
  end.

(** No two entries of the schema have the same name. *)
Definition distinct_names (schema_params : JsonArray) : Prop :=
  forall i j e1 e2 name,
    schema_params !! i = Some e1 -> schema_params !! j = Some e2 ->
    entry_name e1 = Some name -> entry_name e2 = Some name -> i = j.

(** ** The debug page (www/debug/melo_debug.js) *)

(** The request [jsonrpc_call (method, params, callback)] posts to "/rpc",
    as the server reads it: [JSON.stringify] writes the members of
    [request] in the order they were set and leaves out [params] when it
    is undefined, and the number 1 reads back as an integer. *)
Definition jsonrpc_call (method : string) (params : option JsonNode) : JsonNode :=
  let request : JsonObject := [] in
  let request := json_object_set_member request "jsonrpc" (JString "2.0") in
  let request := json_object_set_member request "method" (JString method) in
  let request :=
    match params with
    | Some params => json_object_set_member request "params" params
    | None => request
    end in
  let request := json_object_set_member request "id" (JInt 1) in
  JObject request.

(** ** Media tags (src/melo_tags.c) *)

(** [json_array_get_string_element]: NULL unless the element is a string. *)
Definition json_array_get_string_element (array : JsonArray) (index : nat)
  : option string :=
  match array !! index with
  | Some node => json_node_get_string node
  | None => None
  end.

(** The fields of [MeloTags] the file reads: four strings that may be
    NULL, the year, two track numbers and the cover image, which may be
    NULL. *)
Record MeloTags : Type := {
  title : option string;
  artist : option string;
  album : option string;
  genre : option string;
  date : Z;
  track : Z;
  tracks : Z;
  cover : option (list Byte.byte);
}.

Section Tags.

(** The members of the enumeration [MeloTagsFields] are declared in
    melo_tags.h, which is not among the sources: they are taken as they
    come.  So is [g_base64_encode] of GLib. *)
Variables MELO_TAGS_FIELDS_NONE MELO_TAGS_FIELDS_FULL : Z.
Variables MELO_TAGS_FIELDS_TITLE MELO_TAGS_FIELDS_ARTIST : Z.
Variables MELO_TAGS_FIELDS_ALBUM MELO_TAGS_FIELDS_GENRE : Z.
Variables MELO_TAGS_FIELDS_DATE MELO_TAGS_FIELDS_TRACK : Z.
Variables MELO_TAGS_FIELDS_TRACKS MELO_TAGS_FIELDS_COVER : Z.
Variable g_base64_encode : list Byte.byte -> string.

(** The loop of [melo_tags_get_fields_from_json_array], over the elements
    from index [i] on; [break] returns the fields as they are. *)
Fixpoint get_fields_loop (elements : list JsonNode) (fields : Z) : Z :=
  match elements with
  | [] => fields
  | element :: rest =>
      match json_node_get_string element with
      | None => fields
      | Some field =>
          if String.eqb field "none" then MELO_TAGS_FIELDS_NONE
          else if String.eqb field "full" then MELO_TAGS_FIELDS_FULL
          else if String.eqb field "title"
          then get_fields_loop rest (Z.lor fields MELO_TAGS_FIELDS_TITLE)
          else if String.eqb field "artist"
          then get_fields_loop rest (Z.lor fields MELO_TAGS_FIELDS_ARTIST)
          else if String.eqb field "album"
          then get_fields_loop rest (Z.lor fields MELO_TAGS_FIELDS_ALBUM)
          else if String.eqb field "genre"
          then get_fields_loop rest (Z.lor fields MELO_TAGS_FIELDS_GENRE)
          else if String.eqb field "date"
          then get_fields_loop rest (Z.lor fields MELO_TAGS_FIELDS_DATE)
          else if String.eqb field "track"
          then get_fields_loop rest (Z.lor fields MELO_TAGS_FIELDS_TRACK)
          else if String.eqb field "tracks"
          then get_fields_loop rest (Z.lor fields MELO_TAGS_FIELDS_TRACKS)
          else if String.eqb field "cover"
          then get_fields_loop rest (Z.lor fields MELO_TAGS_FIELDS_COVER)
          else get_fields_loop rest fields
      end
  end.

(** [melo_tags_get_fields_from_json_array] *)
Definition melo_tags_get_fields_from_json_array (array : JsonArray) : Z :=
  let fields := MELO_TAGS_FIELDS_NONE in
  get_fields_loop array fields.

(** [fields & FLAG] as a condition. *)
Definition has_field (fields flag : Z) : bool := negb (Z.land fields flag =? 0).

(** [melo_tags_add_to_json_object]: the object as it is afterwards. *)
Definition melo_tags_add_to_json_object (tags : option MeloTags)
    (obj : JsonObject) (fields : Z) : JsonObject :=
  match tags with
  | None => obj
  | Some tags =>
  (* Nothing to do *)
  if fields =? MELO_TAGS_FIELDS_NONE then obj else
  (* Fill object *)
  let obj :=
    if has_field fields MELO_TAGS_FIELDS_TITLE
    then json_object_set_string_member obj "title" (title tags) else obj in
  let obj :=
    if has_field fields MELO_TAGS_FIELDS_ARTIST
    then json_object_set_string_member obj "artist" (artist tags) else obj in
  let obj :=
    if has_field fields MELO_TAGS_FIELDS_ALBUM
    then json_object_set_string_member obj "album" (album tags) else obj in
  let obj :=
    if has_field fields MELO_TAGS_FIELDS_GENRE
    then json_object_set_string_member obj "genre" (genre tags) else obj in
  let obj :=
    if has_field fields MELO_TAGS_FIELDS_DATE
    then json_object_set_int_member obj "date" (date tags) else obj in
  let obj :=
    if has_field fields MELO_TAGS_FIELDS_TRACK
    then json_object_set_int_member obj "track" (track tags) else obj in
  let obj :=
    if has_field fields MELO_TAGS_FIELDS_TRACKS
    then json_object_set_int_member obj "tracks" (tracks tags) else obj in
  (* Convert image to base64 *)
  match has_field fields MELO_TAGS_FIELDS_COVER, cover tags with
  | true, Some data =>
      json_object_set_string_member obj "cover" (Some (g_base64_encode data))
  | _, _ => obj
  end
  end.

(** [melo_tags_to_json_object] *)
Definition melo_tags_to_json_object (tags : option MeloTags) (fields : Z)
  : JsonObject :=
  melo_tags_add_to_json_object tags [] fields.

End Tags.

(** The member names [melo_tags_add_to_json_object] writes. *)
Definition tag_member_names : list string :=
  ["title"; "artist"; "album"; "genre"; "date"; "track"; "tracks"; "cover"].

(** ** More concrete inputs *)

(** [{"jsonrpc":"2.0","method":"player.play","id":null}] *)
Definition null_id_request : JsonObject :=
  [("jsonrpc", JString "2.0"); ("method", JString "player.play");
   ("id", JNull)].

(** [[{"name":"b","type":"int"},{"name":"a","type":"int","required":false}]] *)
Definition example_schema : JsonArray := [required_int_entry; optional_int_entry].


(** Tags with a title and a year, and nothing else. *)
Definition example_tags : MeloTags :=
  {| title := Some "Blue in Green"; artist := None; album := None;
     genre := None; date := 1959; track := 0; tracks := 0; cover := None |}.

(** A stand-in for [g_base64_encode]. *)
Definition example_base64 (data : list Byte.byte) : string := "".

(** * Properties *)

(** ** The envelope of a request *)

Lemma is_request_inv (obj : JsonObject) :
  is_request obj = true ->
  exists method,
    json_object_get_member obj "jsonrpc" = Some (JString "2.0")
    /\ json_object_get_member obj "method" = Some (JString method)
    /\ params_shape_ok (json_object_get_member obj "params") = true.
Proof.
  unfold is_request.
  destruct (json_object_get_member obj "jsonrpc") as [[]|]; try discriminate.
  destruct (json_object_get_member obj "method") as [[]|]; try discriminate.
  intros [Hv Hp]%andb_true_iff. apply String.eqb_eq in Hv. subst.
  eauto.
Qed.

Lemma params_shape_ok_check (params : option JsonNode) :
  params_shape_ok params = true ->
  match params with
  | Some p =>
      negb (JsonNodeType_eqb (json_node_get_node_type p) JSON_NODE_ARRAY)
      && negb (JsonNodeType_eqb (json_node_get_node_type p) JSON_NODE_OBJECT)
  | None => false
  end = false.
Proof. destruct params as [[]|]; simpl; congruence. Qed.

Section Processor.

Context {World : Type}.
Implicit Type melo_jsonrpc_methods : option (gmap string (@MeloJSONRPCInternalMethod World)).
Implicit Type w : World.

(** Whatever is no request is answered with Invalid Request and a null id,
    with or without an [id] member. *)
Lemma parse_node_not_a_request melo_jsonrpc_methods node w :
  match node with JObject obj => is_request obj = false | _ => True end ->
  melo_jsonrpc_parse_node melo_jsonrpc_methods node w =
    (w, Some (melo_jsonrpc_build_error None (-1)
                MELO_JSONRPC_ERROR_INVALID_REQUEST "Invalid request")).
Proof.
  destruct node as [| | | | |obj|]; try reflexivity.
  unfold is_request, melo_jsonrpc_parse_node, json_object_has_member,
    json_object_get_string_member.
  destruct (json_object_get_member obj "jsonrpc") as [[]|]; try reflexivity.
  simpl. destruct (String.eqb s "2.0"); [|reflexivity]. simpl.
  destruct (json_object_get_member obj "method") as [[]|]; try reflexivity.
  simpl. by destruct (json_object_get_member obj "params") as [[]|].
Qed.

(** Past the envelope checks, a request without [id] runs the callback of
    its method, if there is one, and answers nothing. *)
Lemma parse_node_notification melo_jsonrpc_methods obj w method :
  is_request obj = true ->
  json_object_get_string_member obj "method" = Some method ->
  json_object_has_member obj "id" = false ->
  melo_jsonrpc_parse_node melo_jsonrpc_methods (JObject obj) w =
    match registry_lookup melo_jsonrpc_methods method with
    | Some m =>
        match callback m with
        | Some cb =>
            ((cb method (params m) (json_object_get_member obj "params")
                (user_data m) w).1.1, None)
        | None => (w, None)
        end
    | None => (w, None)
    end.
Proof.
  intros (method' & Hv & Hm & Hp)%is_request_inv Hmethod Hid.
  unfold melo_jsonrpc_parse_node, json_object_has_member,
    json_object_get_string_member in *.
  rewrite Hv, Hm in *. simpl in Hmethod. injection Hmethod as ->. simpl.
  rewrite (params_shape_ok_check _ Hp).
  destruct (json_object_get_member obj "id"); [discriminate|]. simpl.
  destruct (registry_lookup melo_jsonrpc_methods method) as [m|]; [|done].
  destruct (callback m) as [cb|]; [|done].
  by destruct (cb _ _ _ _ _) as [[w' r] e].
Qed.

(** Past the envelope checks, a request with an [id] is always answered,
    and the answer is built from the two readings of that [id]. *)
Lemma parse_node_with_id melo_jsonrpc_methods obj w method :
  is_request obj = true ->
  json_object_get_string_member obj "method" = Some method ->
  json_object_has_member obj "id" = true ->
  let id := json_object_get_string_member obj "id" in
  let nid := json_object_get_int_member obj "id" in
  melo_jsonrpc_parse_node melo_jsonrpc_methods (JObject obj) w =
    match registry_lookup melo_jsonrpc_methods method with
    | Some m =>
        match callback m with
        | Some cb =>
            let '(w', result, error) :=
              cb method (params m) (json_object_get_member obj "params")
                (user_data m) w in
            match error, result with
            | None, None => (w', Some (method_not_found_response id nid))
            | _, _ =>
                (w', Some (melo_jsonrpc_build_response_node result error id nid))
            end
        | None => (w, Some (method_not_found_response id nid))
        end
    | None => (w, Some (method_not_found_response id nid))
    end.
Proof.
  intros (method' & Hv & Hm & Hp)%is_request_inv Hmethod Hid.
  unfold melo_jsonrpc_parse_node, json_object_has_member,
    json_object_get_string_member in *.
  rewrite Hv, Hm in *. simpl in Hmethod. injection Hmethod as ->. simpl.
  rewrite (params_shape_ok_check _ Hp).
  destruct (json_object_get_member obj "id") as [idn|] eqn:Hidn; [|discriminate].
  simpl.
  destruct (registry_lookup melo_jsonrpc_methods method) as [m|]; [|done].
  by destruct (callback m) as [cb|].
Qed.

(** The id a response envelope carries. *)
Lemma response_id_build (result error : option JsonNode) (id : option string)
    (nid : Z) :
  response_id (Some (melo_jsonrpc_build_response_node result error id nid)) =
    Some (if (nid <? 0) || non_null id then string_node id else JInt nid).
Proof.
  unfold melo_jsonrpc_build_response_node.
  destruct ((nid <? 0) || non_null id), error, result; reflexivity.
Qed.

(** The envelope written out as a JSON value, for the two readings of the
    request's id the processor passes on. *)
Lemma build_response_node_value (result error : option JsonNode)
    (id : JsonNode) :
  melo_jsonrpc_build_response_node result error
    (json_node_get_string id) (json_node_get_int id) =
    JObject
      (("jsonrpc", JString "2.0")
       :: match error, result with
          | Some e, _ => [("error", e)]
          | None, Some r => [("result", r)]
          | None, None => []
          end ++ [("id", echoed_id id)])%list.
Proof.
  unfold melo_jsonrpc_build_response_node, echoed_id.
  destruct id as [| b | n | d | s | o | a]; cbn [json_node_get_string
    json_node_get_int non_null orb];
    try (destruct error, result; reflexivity).
  - destruct b; destruct error, result; reflexivity.
  - destruct (n <? 0); destruct error, result; reflexivity.
  - destruct (double_to_int64 d <? 0); destruct error, result; reflexivity.
Qed.

Lemma method_not_found_value (id : JsonNode) :
  method_not_found_response (json_node_get_string id) (json_node_get_int id) =
    JObject
      [("jsonrpc", JString "2.0");
       ("error", JObject [("code", JInt (-32601));
                          ("message", JString "Method not found")]);
       ("id", echoed_id id)].
Proof.
  unfold method_not_found_response, melo_jsonrpc_build_error.
  apply build_response_node_value.
Qed.

Lemma response_id_parse_node melo_jsonrpc_methods obj w :
  is_request obj = true ->
  json_object_has_member obj "id" = true ->
  let id := json_object_get_string_member obj "id" in
  let nid := json_object_get_int_member obj "id" in
  response_id (melo_jsonrpc_parse_node melo_jsonrpc_methods (JObject obj) w).2 =
    Some (if (nid <? 0) || non_null id then string_node id else JInt nid).
Proof.
  intros Hreq Hid id nid.
  destruct (is_request_inv _ Hreq) as (method & _ & Hm & _).
  rewrite (parse_node_with_id _ _ _ method Hreq); [|
    by unfold json_object_get_string_member; rewrite Hm | done].
  fold id nid.
  destruct (registry_lookup melo_jsonrpc_methods method) as [m|];
    [|apply response_id_build].
  destruct (callback m) as [cb|]; [|apply response_id_build].
  destruct (cb _ _ _ _ _) as [[w' [r|]] [e|]]; apply response_id_build.
Qed.

(** C1 (as the code has it): the response to a valid request echoes a
    string id as the same string and a non-negative integer id, 0 included,
    as the same integer; a negative integer id comes back as null.  The echo
    of an integer id is never a string, so a string id and an integer id
    can always be told apart in the responses. *)
Theorem request_id_round_trip melo_jsonrpc_methods obj w id :
  is_request obj = true ->
  json_object_get_member obj "id" = Some id ->
  let echo :=
    response_id (melo_jsonrpc_parse_node melo_jsonrpc_methods (JObject obj) w).2 in
  match id with
  | JString s => echo = Some (JString s)
  | JInt n =>
      echo = Some (if n <? 0 then JNull else JInt n)
      /\ forall s, echo <> Some (JString s)
  | _ => True
  end.
Proof.
  intros Hreq Hid echo. subst echo.
  rewrite response_id_parse_node; [|done|
    by unfold json_object_has_member; rewrite Hid].
  unfold json_object_get_string_member, json_object_get_int_member.
  rewrite Hid. destruct id as [| | n | | s | |]; simpl; try exact I.
  - rewrite orb_false_r. split; [reflexivity|]. by destruct (n <? 0).
  - reflexivity.
Qed.

(** C2: a request without [id] is never answered.  When its method has a
    callback the callback runs, and the state it leaves is all that remains
    of the call: its result and its error are dropped.  Without a callback
    nothing happens at all. *)
Theorem notification_yields_no_response melo_jsonrpc_methods obj w method :
  is_request obj = true ->
  json_object_get_string_member obj "method" = Some method ->
  json_object_has_member obj "id" = false ->
  let handler := registry_lookup melo_jsonrpc_methods method ≫= callback in
  let s_params := registry_lookup melo_jsonrpc_methods method ≫= params in
  let user_data :=
    from_option user_data NULL (registry_lookup melo_jsonrpc_methods method) in
  melo_jsonrpc_parse_node melo_jsonrpc_methods (JObject obj) w =
    match handler with
    | Some cb =>
        ((cb method s_params (json_object_get_member obj "params") user_data w).1.1,
         None)
    | None => (w, None)
    end.
Proof.
  intros Hreq Hmethod Hid handler s_params ud.
  rewrite (parse_node_notification _ _ _ method Hreq Hmethod Hid).
  subst handler s_params ud.
  by destruct (registry_lookup melo_jsonrpc_methods method) as [m|].
Qed.

End Processor.

Lemma request_id_round_trip_witness :
  is_request negative_id_request = true
  /\ json_object_get_member negative_id_request "id" = Some (JInt (-1))
  /\ (response_id
        (melo_jsonrpc_parse_node (World := unit) None
           (JObject negative_id_request) tt).2 = Some JNull
      /\ forall s,
        response_id
          (melo_jsonrpc_parse_node (World := unit) None
             (JObject negative_id_request) tt).2 <> Some (JString s)).
Proof.
  split; [reflexivity|]. split; [reflexivity|].
  apply (request_id_round_trip (World := unit) None negative_id_request tt
           (JInt (-1))); reflexivity.
Defined.

(** C1, counterexample: with no method registered, the request
    [{"jsonrpc":"2.0","method":"foo.bar","id":-1}] is answered with
    ["id":null], not with -1. *)
Lemma negative_id_not_echoed :
  ~ id_echoed_verbatim (World := unit) None negative_id_request tt.
Proof.
  intros H. specialize (H (JInt (-1)) eq_refl eq_refl eq_refl).
  vm_compute in H. discriminate H.
Qed.

(** ** The method registry *)

Section Registry.

Context {World : Type}.
Implicit Type melo_jsonrpc_methods : option (gmap string (@MeloJSONRPCInternalMethod World)).
Implicit Type w : World.

Lemma registered_names_NoDup melo_jsonrpc_methods :
  NoDup (registered_names melo_jsonrpc_methods).
Proof.
  destruct melo_jsonrpc_methods as [table|]; simpl.
  - apply NoDup_fst_map_to_list.
  - constructor.
Qed.

(** A successful registration publishes exactly the given method. *)
Lemma register_method_fresh melo_jsonrpc_methods group method p r cb ud :
  registry_lookup melo_jsonrpc_methods (complete_method_name group method) = None ->
  exists table,
    melo_jsonrpc_register_method melo_jsonrpc_methods group method p r cb ud
    = (Some table, true)
    /\ table !! complete_method_name group method
       = Some {| params := p; result := r; callback := cb; user_data := ud |}
    /\ (forall other, other <> complete_method_name group method ->
          table !! other = registry_lookup melo_jsonrpc_methods other)
    /\ size table = S (registry_size melo_jsonrpc_methods).
Proof.
  intros Hfree. unfold melo_jsonrpc_register_method.
  destruct melo_jsonrpc_methods as [table|]; simpl in *.
  - rewrite Hfree. eexists. split; [reflexivity|].
    split; [apply lookup_insert_eq|].
    split; [intros; by apply lookup_insert_ne|].
    by apply map_size_insert_None.
  - rewrite lookup_empty. eexists. split; [reflexivity|].
    split; [apply lookup_insert_eq|].
    split; [intros; rewrite lookup_insert_ne by done; apply lookup_empty|].
    rewrite map_size_insert_None by apply lookup_empty.
    by rewrite map_size_empty.
Qed.

Lemma register_method_taken melo_jsonrpc_methods group method p r cb ud m0 :
  registry_lookup melo_jsonrpc_methods (complete_method_name group method)
  = Some m0 ->
  melo_jsonrpc_register_method melo_jsonrpc_methods group method p r cb ud
  = (melo_jsonrpc_methods, false).
Proof.
  intros Htaken. unfold melo_jsonrpc_register_method.
  destruct melo_jsonrpc_methods as [table|]; simpl in *; [|discriminate].
  by rewrite Htaken.
Qed.

(** Every call leaves the table pointer NULL or the table non-empty. *)
Lemma registry_wf_initial : registry_wf (World := World) None.
Proof. discriminate. Qed.

Lemma registry_wf_register melo_jsonrpc_methods group method p r cb ud :
  registry_wf melo_jsonrpc_methods ->
  registry_wf
    (melo_jsonrpc_register_method melo_jsonrpc_methods group method p r cb ud).1.
Proof.
  intros Hwf.
  destruct (registry_lookup melo_jsonrpc_methods
              (complete_method_name group method)) as [m0|] eqn:Hl.
  - by rewrite (register_method_taken _ _ _ _ _ _ _ m0).
  - destruct (register_method_fresh _ group method p r cb ud Hl)
      as (table & -> & _ & _ & Hsize).
    simpl. intros [= ->]. by rewrite map_size_empty in Hsize.
Qed.

Lemma registry_wf_unregister melo_jsonrpc_methods group method :
  registry_wf (melo_jsonrpc_unregister_method melo_jsonrpc_methods group method).
Proof.
  unfold melo_jsonrpc_unregister_method, registry_wf.
  destruct melo_jsonrpc_methods as [table|]; [|discriminate].
  destruct (size _ =? 0)%nat eqn:Hsize; [discriminate|].
  intros [= Hempty]. rewrite Hempty, map_size_empty in Hsize. discriminate.
Qed.

Lemma unregister_lookup melo_jsonrpc_methods group method name :
  registry_lookup
    (melo_jsonrpc_unregister_method melo_jsonrpc_methods group method) name =
    if decide (complete_method_name group method = name) then None
    else registry_lookup melo_jsonrpc_methods name.
Proof.
  unfold melo_jsonrpc_unregister_method.
  destruct melo_jsonrpc_methods as [table|]; simpl; [|by case_decide].
  destruct (size _ =? 0)%nat eqn:Hsize; simpl.
  - apply Nat.eqb_eq, map_size_empty_iff in Hsize.
    rewrite <- (lookup_delete table), Hsize. apply eq_sym, lookup_empty.
  - by rewrite lookup_delete.
Qed.

Lemma unregister_absent melo_jsonrpc_methods group method :
  registry_wf melo_jsonrpc_methods ->
  registry_lookup melo_jsonrpc_methods (complete_method_name group method) = None ->
  melo_jsonrpc_unregister_method melo_jsonrpc_methods group method
  = melo_jsonrpc_methods.
Proof.
  unfold melo_jsonrpc_unregister_method, registry_wf.
  destruct melo_jsonrpc_methods as [table|]; simpl; [|done].
  intros Hwf Habsent. rewrite delete_id by done.
  destruct (size table =? 0)%nat eqn:Hsize; [|done].
  apply Nat.eqb_eq, map_size_empty_iff in Hsize. congruence.
Qed.

(** Unregistering in bulk passes silently over the names that are not
    registered. *)
Lemma unregister_methods_absent melo_jsonrpc_methods group
    (methods : list (MeloJSONRPCMethod World)) :
  registry_wf melo_jsonrpc_methods ->
  Forall (fun m => registry_lookup melo_jsonrpc_methods
                     (complete_method_name group (Method.method m)) = None)
    methods ->
  melo_jsonrpc_unregister_methods melo_jsonrpc_methods group methods
  = melo_jsonrpc_methods.
Proof.
  intros Hwf Hall. induction Hall as [|m rest Hm _ IH]; simpl; [done|].
  by rewrite unregister_absent.
Qed.

(** C4: registering a name that is already registered returns FALSE and
    leaves the registry as it was, so the first registration is still the
    one a lookup finds; and no name is ever listed twice. *)
Theorem register_twice_fails melo_jsonrpc_methods group method p r cb ud m0 :
  registry_lookup melo_jsonrpc_methods (complete_method_name group method)
  = Some m0 ->
  let after :=
    melo_jsonrpc_register_method melo_jsonrpc_methods group method p r cb ud in
  after = (melo_jsonrpc_methods, false)
  /\ registry_lookup after.1 (complete_method_name group method) = Some m0
  /\ NoDup (registered_names after.1).
Proof.
  intros Htaken after. subst after.
  rewrite (register_method_taken _ _ _ _ _ _ _ m0 Htaken). simpl.
  split; [done|]. split; [done|]. apply registered_names_NoDup.
Qed.

(** The answer to a request for a method that is not registered, as a
    JSON value. *)
Lemma parse_node_unknown_method melo_jsonrpc_methods obj w method id :
  is_request obj = true ->
  json_object_get_string_member obj "method" = Some method ->
  json_object_get_member obj "id" = Some id ->
  registry_lookup melo_jsonrpc_methods method = None ->
  melo_jsonrpc_parse_node melo_jsonrpc_methods (JObject obj) w =
    (w, Some (JObject
                [("jsonrpc", JString "2.0");
                 ("error", JObject [("code", JInt (-32601));
                                    ("message", JString "Method not found")]);
                 ("id", echoed_id id)])).
Proof.
  intros Hreq Hmethod Hid Hnone.
  rewrite (parse_node_with_id _ _ _ method Hreq Hmethod);
    [|by unfold json_object_has_member; rewrite Hid].
  rewrite Hnone.
  unfold json_object_get_string_member, json_object_get_int_member.
  rewrite Hid. f_equal. f_equal.
  apply method_not_found_value.
Qed.

(** C9: unregistering "group" and "method" removes the entry of the name
    "group.method" and no other, so a later request for that name is
    answered with the Method Not Found envelope
    [{"jsonrpc":"2.0","error":{"code":-32601,"message":"Method not found"},
    "id":...}]; when the name is not registered, the registry stays exactly
    as it was, also when there is no table at all. *)
Theorem unregister_removes melo_jsonrpc_methods group method :
  registry_wf melo_jsonrpc_methods ->
  let name := group +:+ "." +:+ method in
  let after := melo_jsonrpc_unregister_method melo_jsonrpc_methods group method in
  registry_lookup after name = None
  /\ (forall other, other <> name ->
        registry_lookup after other = registry_lookup melo_jsonrpc_methods other)
  /\ (forall obj w id,
        is_request obj = true ->
        json_object_get_string_member obj "method" = Some name ->
        json_object_get_member obj "id" = Some id ->
        melo_jsonrpc_parse_node after (JObject obj) w =
          (w, Some (JObject
                      [("jsonrpc", JString "2.0");
                       ("error",
                        JObject [("code", JInt (-32601));
                                 ("message", JString "Method not found")]);
                       ("id", echoed_id id)])))
  /\ (registry_lookup melo_jsonrpc_methods name = None ->
        after = melo_jsonrpc_methods).
Proof.
  intros Hwf name after. subst name after.
  change (group +:+ "." +:+ method) with (complete_method_name group method).
  split; [|split; [|split]].
  - rewrite unregister_lookup. by case_decide.
  - intros other Hne. rewrite unregister_lookup. by case_decide.
  - intros obj w id Hreq Hmethod Hid.
    apply (parse_node_unknown_method _ _ _ _ _ Hreq Hmethod Hid).
    rewrite unregister_lookup. by case_decide.
  - by apply unregister_absent.
Qed.

End Registry.

(** ** The top-level dispatcher *)

Section Dispatcher.

Context {World : Type}.
Variable json_parser_load_from_data : string -> parse_result.
Variable json_generator_to_data : JsonNode -> string.
Implicit Type melo_jsonrpc_methods : option (gmap string (@MeloJSONRPCInternalMethod World)).
Implicit Type w : World.

Lemma element_responses_length melo_jsonrpc_methods elements w :
  length (element_responses melo_jsonrpc_methods elements w).2 = length elements.
Proof.
  revert w. induction elements as [|element rest IH]; intros w; simpl; [done|].
  destruct (melo_jsonrpc_parse_node _ element w) as [w1 response].
  specialize (IH w1).
  destruct (element_responses _ rest w1) as [w2 responses]. simpl in *.
  by rewrite IH.
Qed.

(** The loop appends to the response array the responses there are, in the
    order of the elements. *)
Lemma parse_batch_responses melo_jsonrpc_methods elements res_array w :
  parse_batch melo_jsonrpc_methods elements res_array w =
    let '(w', responses) := element_responses melo_jsonrpc_methods elements w in
    (w', (res_array ++ omap id responses)%list).
Proof.
  revert res_array w.
  induction elements as [|element rest IH]; intros res_array w; simpl.
  - by rewrite app_nil_r.
  - destruct (melo_jsonrpc_parse_node _ element w) as [w1 response].
    rewrite IH. destruct (element_responses _ rest w1) as [w2 responses].
    destruct response as [node|]; simpl; [|done].
    unfold json_array_add_element. by rewrite <- app_assoc.
Qed.

(** C3: an empty batch is answered with one Invalid Request envelope,
    [{"jsonrpc":"2.0","error":{"code":-32600,"message":"Invalid request"},
    "id":null}].  Of a batch with elements, every element is processed, and
    the answer is the array of the responses that exist, in the order of
    their elements; when no element has a response the dispatcher returns
    nothing, not an empty array. *)
Theorem batch_dispatch melo_jsonrpc_methods request elements w :
  json_parser_load_from_data request = ParseRoot (JArray elements) ->
  melo_jsonrpc_parse_request json_parser_load_from_data json_generator_to_data
    melo_jsonrpc_methods request w =
    match elements with
    | [] =>
        (w, Some (json_generator_to_data
                    (JObject
                       [("jsonrpc", JString "2.0");
                        ("error", JObject [("code", JInt (-32600));
                                           ("message", JString "Invalid request")]);
                        ("id", JNull)])))
    | _ :: _ =>
        let '(w', responses) :=
          element_responses melo_jsonrpc_methods elements w in
        match omap id responses with
        | [] => (w', None)
        | present => (w', Some (json_generator_to_data (JArray present)))
        end
    end.
Proof.
  intros Hroot. unfold melo_jsonrpc_parse_request. rewrite Hroot.
  destruct elements as [|element rest]; [reflexivity|].
  change (json_array_get_length (element :: rest) =? 0)%nat with false.
  cbv iota. rewrite parse_batch_responses.
  destruct (element_responses _ (element :: rest) w) as [w' responses].
  rewrite app_nil_l. by destruct (omap id responses).
Qed.

End Dispatcher.

(** ** The parameter validator *)

Lemma add_to_mode obj array set_member add_element obj' array' :
  add_to obj array set_member add_element = (obj', array') ->
  non_null obj' = non_null obj /\ non_null array' = non_null array.
Proof. destruct obj, array; simpl; intros [= <- <-]; done. Qed.

(** The check of one value passes exactly when the entry has a name and
    the value has the declared type. *)
Lemma add_node_Some node schema obj array :
  is_Some (melo_jsonrpc_add_node node schema obj array) <->
  is_Some (json_object_get_string_member schema "name")
  /\ type_matches schema node = true.
Proof.
  unfold melo_jsonrpc_add_node, type_matches, declared_kind.
  destruct (json_object_get_string_member schema "name") as [s_name|];
    [|split; [intros [? [=]]|intros [[? [=]] _]]].
  destruct (json_object_get_string_member schema "type") as [s_type|];
    [|split; [intros [? [=]]|intros [_ [=]]]].
  repeat (match goal with
          | |- context [Ascii.eqb ?c ?x] => destruct (Ascii.eqb c x)
          end);
    destruct node; simpl; split;
    solve [ intros [? [=]] | intros [_ [=]] | eauto ].
Qed.

Lemma add_node_mismatch node schema obj array :
  type_matches schema node = false ->
  melo_jsonrpc_add_node node schema obj array = None.
Proof.
  intros Hmis.
  destruct (melo_jsonrpc_add_node node schema obj array) eqn:Hadd; [|done].
  assert (is_Some (melo_jsonrpc_add_node node schema obj array)) as Hs
    by (rewrite Hadd; eauto).
  apply add_node_Some in Hs as [_ Hm]. congruence.
Qed.

Lemma add_node_mode node schema obj array obj' array' :
  melo_jsonrpc_add_node node schema obj array = Some (obj', array') ->
  non_null obj' = non_null obj /\ non_null array' = non_null array.
Proof.
  unfold melo_jsonrpc_add_node.
  destruct (json_object_get_string_member schema "name"); [|done].
  destruct (json_object_get_string_member schema "type"); [|done].
  repeat (match goal with
          | |- context [if ?b then _ else _] => destruct b
          end); try done; intros [= H]; by apply add_to_mode in H.
Qed.

(** A walk over an object of parameters fails when it comes to a value of
    the wrong type; it comes to it unless it converts to an array and has
    stopped at a gap before. *)
Lemma object_loop_mismatch o schema_params obj array i schema name v :
  schema_params !! i = Some (JObject schema) ->
  json_object_get_string_member schema "name" = Some name ->
  json_object_get_member o name = Some v ->
  type_matches schema v = false ->
  non_null obj = true \/ non_null array = false
  \/ no_gap_before (JObject o) schema_params i ->
  object_loop o schema_params obj array = None.
Proof.
  revert i obj array.
  induction schema_params as [|element rest IH];
    intros i obj array Hentry Hname Hv Hmis Hreach; [done|].
  destruct i as [|i]; simpl in Hentry |- *.
  - injection Hentry as ->. simpl. rewrite Hname, Hv.
    by rewrite add_node_mismatch.
  - assert (forall obj' array',
        non_null obj' = non_null obj -> non_null array' = non_null array ->
        object_loop o rest obj' array' = None) as Hrest.
    { intros obj' array' Ho Ha. apply (IH i); try done.
      rewrite Ho, Ha.
      destruct Hreach as [?|[?|Hgap]]; [by left|by right; left|].
      right; right. intros j sj nj Hj Hsj Hnj.
      apply (Hgap (S j) sj nj); [lia|done|done]. }
    destruct (json_node_get_object element) as [schema0|] eqn:Helement; [|done].
    destruct (json_object_get_string_member schema0 "name") as [name0|] eqn:Hname0;
      [|done].
    destruct (json_object_get_member o name0) as [node|] eqn:Hnode.
    + destruct (melo_jsonrpc_add_node node schema0 obj array)
        as [[obj' array']|] eqn:Hadd; [|done].
      apply add_node_mode in Hadd as [? ?]. by apply Hrest.
    + destruct (json_object_get_member schema0 "required") as [flag|]; [|done].
      destruct (json_node_get_boolean flag); [done|].
      destruct (non_null obj) eqn:Hobj; [by apply Hrest|].
      destruct (non_null array) eqn:Harray.
      * destruct Hreach as [?|[?|Hgap]]; [done|done|].
        destruct element; try discriminate. injection Helement as ->.
        by destruct (Hgap 0%nat schema0 name0 ltac:(lia) eq_refl Hname0).
      * destruct (melo_jsonrpc_add_node flag schema0 obj array)
          as [[obj' array']|] eqn:Hadd; [|done].
        apply add_node_mode in Hadd as [? ?]. apply Hrest; congruence.
Qed.

(** A walk over an array of parameters always comes to a value that is
    there, and fails on it when it has the wrong type. *)
Lemma array_loop_mismatch a schema_params k i schema v obj array :
  schema_params !! i = Some (JObject schema) ->
  a !! (k + i)%nat = Some v ->
  type_matches schema v = false ->
  array_loop a (length a) schema_params k obj array = None.
Proof.
  revert i k obj array.
  induction schema_params as [|element rest IH];
    intros i k obj array Hentry Hv Hmis; [done|].
  pose proof (lookup_lt_Some _ _ _ Hv) as Hlt.
  assert ((length a <=? k)%nat = false) as Hk by (apply Nat.leb_gt; lia).
  destruct i as [|i]; simpl in Hentry |- *.
  - injection Hentry as ->. simpl. rewrite Hk.
    unfold json_array_get_element. rewrite Nat.add_0_r in Hv. rewrite Hv.
    by rewrite add_node_mismatch.
  - destruct (json_node_get_object element) as [schema0|]; [|done].
    rewrite Hk. destruct (json_array_get_element a k) as [node|]; [|done].
    destruct (melo_jsonrpc_add_node node schema0 obj array)
      as [[obj' array']|]; [|done].
    apply (IH i); [done| |done].
    by replace (S k + i)%nat with (k + S i)%nat by lia.
Qed.

Lemma get_json_node_mismatch schema_params params obj array error i schema name v :
  schema_params !! i = Some (JObject schema) ->
  json_object_get_string_member schema "name" = Some name ->
  value_at params i name = Some v ->
  type_matches schema v = false ->
  non_null obj = true \/ non_null array = false
  \/ no_gap_before params schema_params i ->
  melo_jsonrpc_get_json_node (Some schema_params) (Some params) obj array error
  = (None, set_error error MELO_JSONRPC_ERROR_INVALID_PARAMS "Invalid params").
Proof.
  intros Hentry Hname Hv Hmis Hreach. unfold melo_jsonrpc_get_json_node.
  destruct params as [| | | | |o|a]; try discriminate; simpl in Hv.
  - by rewrite (object_loop_mismatch o _ _ _ i schema name v).
  - unfold json_array_get_length.
    by rewrite (array_loop_mismatch a _ 0%nat i schema v).
Qed.

(** In an array of parameters no value is preceded by a gap. *)
Lemma array_no_gap a schema_params i v :
  a !! i = Some v -> no_gap_before (JArray a) schema_params i.
Proof.
  intros Hv j schema name Hj _ _. simpl.
  apply lookup_lt_Some in Hv. intros Hnone%lookup_ge_None. lia.
Qed.

(** C5 (as the code has it): a wire value that is present and does not
    have exactly the type its schema entry declares makes [check] and the
    conversion to an object fail with Invalid Params.  So does the
    conversion to an array, for an array of parameters and, for an object
    of parameters, when no earlier entry lacks its value.  The error left
    in an empty slot is [{"code":-32602,"message":"Invalid params"}]. *)
Theorem mismatch_is_invalid_params schema_params params error i schema name v :
  schema_params !! i = Some (JObject schema) ->
  json_object_get_string_member schema "name" = Some name ->
  value_at params i name = Some v ->
  type_matches schema v = false ->
  let failed :=
    set_error error MELO_JSONRPC_ERROR_INVALID_PARAMS "Invalid params" in
  melo_jsonrpc_check_params (Some schema_params) (Some params) error
  = (false, failed)
  /\ melo_jsonrpc_get_object (Some schema_params) (Some params) error
     = (None, failed)
  /\ (json_node_get_node_type params = JSON_NODE_ARRAY
      \/ no_gap_before params schema_params i ->
      melo_jsonrpc_get_array (Some schema_params) (Some params) error
      = (None, failed))
  /\ (error = Some None ->
      failed = Some (Some (JObject [("code", JInt (-32602));
                                    ("message", JString "Invalid params")]))).
Proof.
  intros Hentry Hname Hv Hmis failed. subst failed.
  unfold melo_jsonrpc_check_params, melo_jsonrpc_get_object,
    melo_jsonrpc_get_array.
  split; [|split; [|split; [|by intros ->]]].
  - rewrite (get_json_node_mismatch _ _ _ _ _ i schema name v); auto.
  - rewrite (get_json_node_mismatch _ _ _ _ _ i schema name v); auto.
  - intros Hreach.
    rewrite (get_json_node_mismatch _ _ _ _ _ i schema name v); auto.
    right; right. destruct Hreach as [Harr|Hgap]; [|done].
    destruct params; try discriminate. by eapply array_no_gap.
Qed.

(** C5, counterexample: with the schema
    [[{"name":"a","type":"int","required":false},{"name":"b","type":"int"}]]
    and the parameters [{"b":"x"}], the conversion to an array stops at the
    missing [a] and succeeds, although the string ["x"] is present where an
    integer is declared. *)
Lemma abandoned_value_not_checked :
  ~ present_values_type_checked [optional_int_entry; required_int_entry]
      (JObject [("b", JString "x")]).
Proof.
  intros H.
  specialize (H 1%nat [("name", JString "b"); ("type", JString "int")] "b"
                (JString "x") eq_refl eq_refl eq_refl).
  vm_compute in H. specialize (H ltac:(discriminate)). discriminate H.
Qed.

(** The entries a walk finds without a wire value.  A required entry fails
    the walk, in an object as in an array of parameters. *)
Lemma object_loop_required_missing o schema rest name obj array :
  json_object_get_string_member schema "name" = Some name ->
  json_object_get_member o name = None ->
  entry_required (JObject schema) = true ->
  object_loop o (JObject schema :: rest) obj array = None.
Proof.
  intros Hname Habsent Hreq. simpl. rewrite Hname, Habsent.
  unfold entry_required in Hreq. simpl in Hreq.
  destruct (json_object_get_member schema "required"); [|done].
  by rewrite Hreq.
Qed.

Lemma array_loop_required_missing a schema rest i obj array :
  (length a <= i)%nat ->
  entry_required (JObject schema) = true ->
  array_loop a (length a) (JObject schema :: rest) i obj array = None.
Proof.
  intros Hi Hreq. simpl. rewrite (proj2 (Nat.leb_le _ _) Hi).
  unfold entry_required in Hreq. simpl in Hreq.
  destruct (json_object_get_member schema "required"); [|done].
  by rewrite Hreq.
Qed.

(** An optional entry is skipped by the conversion to an object, stops the
    conversion to an array, and stops every walk over an array of
    parameters that has run out of values. *)
Lemma object_loop_optional_skipped o schema rest name (obj : JsonObject) array :
  json_object_get_string_member schema "name" = Some name ->
  json_object_get_member o name = None ->
  entry_required (JObject schema) = false ->
  object_loop o (JObject schema :: rest) (Some obj) array
  = object_loop o rest (Some obj) array.
Proof.
  intros Hname Habsent Hopt. simpl. rewrite Hname, Habsent.
  unfold entry_required in Hopt. simpl in Hopt.
  destruct (json_object_get_member schema "required"); [|done].
  by rewrite Hopt.
Qed.

Lemma object_loop_optional_stops o schema rest name (array : JsonArray) :
  json_object_get_string_member schema "name" = Some name ->
  json_object_get_member o name = None ->
  entry_required (JObject schema) = false ->
  object_loop o (JObject schema :: rest) None (Some array)
  = Some (None, Some array).
Proof.
  intros Hname Habsent Hopt. simpl. rewrite Hname, Habsent.
  unfold entry_required in Hopt. simpl in Hopt.
  destruct (json_object_get_member schema "required"); [|done].
  by rewrite Hopt.
Qed.

Lemma array_loop_optional_stops a schema rest i obj array :
  (length a <= i)%nat ->
  entry_required (JObject schema) = false ->
  array_loop a (length a) (JObject schema :: rest) i obj array
  = Some (obj, array).
Proof.
  intros Hi Hopt. simpl. rewrite (proj2 (Nat.leb_le _ _) Hi).
  unfold entry_required in Hopt. simpl in Hopt.
  destruct (json_object_get_member schema "required"); [|done].
  by rewrite Hopt.
Qed.

(** What [check] does with an optional entry that an object of parameters
    lacks: it hands the [required] member of the entry itself to the type
    check, and so rejects every such entry that is not declared boolean. *)
Lemma check_absent_optional schema rest o name flag error :
  json_object_get_string_member schema "name" = Some name ->
  json_object_get_member o name = None ->
  json_object_get_member schema "required" = Some flag ->
  json_node_get_boolean flag = false ->
  type_matches schema flag = false ->
  melo_jsonrpc_check_params (Some (JObject schema :: rest)) (Some (JObject o))
    error
  = (false, set_error error MELO_JSONRPC_ERROR_INVALID_PARAMS "Invalid params").
Proof.
  intros Hname Habsent Hflag Hfalse Hmis.
  unfold melo_jsonrpc_check_params, melo_jsonrpc_get_json_node. simpl.
  rewrite Hname, Habsent, Hflag, Hfalse. simpl.
  by rewrite add_node_mismatch.
Qed.

(** C6, the defect: with the schema
    [[{"name":"a","type":"int","required":false}]] and the parameters [{}],
    both conversions accept the missing optional [a], and so does every
    operation on the empty array [[]]; [check] alone rejects it, with
    Invalid Params. *)
Theorem check_rejects_absent_optional :
  melo_jsonrpc_check_params (Some [optional_int_entry]) (Some (JObject []))
    (Some None)
  = (false,
     Some (Some (melo_jsonrpc_build_error_node
                   MELO_JSONRPC_ERROR_INVALID_PARAMS "Invalid params")))
  /\ melo_jsonrpc_get_object (Some [optional_int_entry]) (Some (JObject []))
       (Some None) = (Some [], Some None)
  /\ melo_jsonrpc_get_array (Some [optional_int_entry]) (Some (JObject []))
       (Some None) = (Some [], Some None)
  /\ melo_jsonrpc_check_params (Some [optional_int_entry]) (Some (JArray []))
       (Some None) = (true, Some None).
Proof. repeat split. Qed.

(** C7 (as the code has it): without any wire value the three operations
    fail with Invalid Request, which is not Invalid Params, whatever the
    schema requires. *)
Theorem absent_params_invalid_request (schema_params : JsonArray)
    (error : error_slot) :
  let failed :=
    set_error error MELO_JSONRPC_ERROR_INVALID_REQUEST "Invalid request" in
  melo_jsonrpc_check_params (Some schema_params) None error = (false, failed)
  /\ melo_jsonrpc_get_object (Some schema_params) None error = (None, failed)
  /\ melo_jsonrpc_get_array (Some schema_params) None error = (None, failed)
  /\ set_error (Some None) MELO_JSONRPC_ERROR_INVALID_REQUEST "Invalid request"
     = Some (Some (JObject [("code", JInt (-32600));
                            ("message", JString "Invalid request")]))
  /\ MELO_JSONRPC_ERROR_INVALID_REQUEST <> MELO_JSONRPC_ERROR_INVALID_PARAMS.
Proof.
  intros failed. subst failed.
  unfold melo_jsonrpc_check_params, melo_jsonrpc_get_object,
    melo_jsonrpc_get_array, melo_jsonrpc_get_json_node.
  repeat (split; [reflexivity|]). discriminate.
Qed.

(** C7, counterexample: the schema
    [[{"name":"a","type":"int","required":false}]] has no required entry,
    and [check] without parameters still fails. *)
Lemma absent_params_never_accepted :
  ~ succeeds_without_params [optional_int_entry].
Proof. intros H. specialize (H eq_refl). discriminate H. Qed.

(** C10: a wire value that is neither an object nor an array passes the
    walk untouched: [check] is TRUE, the conversions return the empty
    object and the empty array, the error slot stays as it was, and the
    schema is not looked at. *)
Theorem scalar_params_accepted (schema_params : JsonArray) (params : JsonNode)
    (error : error_slot) :
  JsonNodeType_eqb (json_node_get_node_type params) JSON_NODE_OBJECT = false ->
  JsonNodeType_eqb (json_node_get_node_type params) JSON_NODE_ARRAY = false ->
  melo_jsonrpc_check_params (Some schema_params) (Some params) error
  = (true, error)
  /\ melo_jsonrpc_get_object (Some schema_params) (Some params) error
     = (Some [], error)
  /\ melo_jsonrpc_get_array (Some schema_params) (Some params) error
     = (Some [], error).
Proof. destruct params; simpl; try discriminate; intros _ _; repeat split. Qed.

(** ** Bulk registration *)

Section Bulk.

Context {World : Type}.
Variable json_parser_load_from_data : string -> parse_result.
Implicit Type melo_jsonrpc_methods : option (gmap string (@MeloJSONRPCInternalMethod World)).
Implicit Type m : MeloJSONRPCMethod World.

Local Abbreviation run := (melo_jsonrpc_register_methods json_parser_load_from_data).
Local Abbreviation schemas := (entry_schemas json_parser_load_from_data).

(** One turn of the loop, read through [entry_schemas]. *)
Lemma register_methods_step_schemas group m melo_jsonrpc_methods errors :
  register_methods_step json_parser_load_from_data group m
    melo_jsonrpc_methods errors =
    match schemas m with
    | None => (melo_jsonrpc_methods, errors)
    | Some (p, r) =>
        let '(methods', ret) :=
          melo_jsonrpc_register_method melo_jsonrpc_methods group
            (Method.method m) p r (Method.callback m) (Method.user_data m) in
        (methods', ((if ret then 0 else 1) + errors)%nat)
    end.
Proof.
  unfold register_methods_step, entry_schemas.
  destruct (load_schema _ (Method.params m)) as [| |[]];
    destruct (load_schema _ (Method.result m)) as [| |[]]; simpl; try done;
    by destruct (melo_jsonrpc_register_method _ _ _ _ _ _ _) as [? []].
Qed.

(** The counter of the loop only ever adds to what it starts from. *)
Lemma register_methods_loop_errors group methods melo_jsonrpc_methods errors :
  register_methods_loop json_parser_load_from_data group methods
    melo_jsonrpc_methods errors =
    let '(methods', n) := run melo_jsonrpc_methods group methods in
    (methods', (errors + n)%nat).
Proof.
  unfold melo_jsonrpc_register_methods.
  revert melo_jsonrpc_methods errors.
  induction methods as [|m rest IH]; intros st errors; simpl.
  - by rewrite Nat.add_0_r.
  - destruct (register_methods_step _ group m st errors) as [st1 e1] eqn:H1.
    destruct (register_methods_step _ group m st 0%nat) as [st0 e0] eqn:H0.
    rewrite register_methods_step_schemas in H1, H0.
    rewrite (IH st1 e1), (IH st0 e0).
    destruct (schemas m) as [[p r]|].
    + destruct (melo_jsonrpc_register_method _ _ _ _ _ _ _) as [st' ret].
      injection H1 as <- <-. injection H0 as <- <-.
      destruct (register_methods_loop _ group rest st' 0%nat) as [st2 n].
      f_equal. lia.
    + injection H1 as <- <-. injection H0 as <- <-.
      destruct (register_methods_loop _ group rest st 0%nat) as [st2 n].
      f_equal.
Qed.

Lemma register_methods_cons group m rest melo_jsonrpc_methods :
  run melo_jsonrpc_methods group (m :: rest) =
    match schemas m with
    | None => run melo_jsonrpc_methods group rest
    | Some (p, r) =>
        let '(methods1, ret) :=
          melo_jsonrpc_register_method melo_jsonrpc_methods group
            (Method.method m) p r (Method.callback m) (Method.user_data m) in
        let '(methods2, errors) := run methods1 group rest in
        (methods2, ((if ret then 0 else 1) + errors)%nat)
    end.
Proof.
  unfold melo_jsonrpc_register_methods at 1. simpl.
  rewrite register_methods_step_schemas.
  destruct (schemas m) as [[p r]|]; [|done].
  destruct (melo_jsonrpc_register_method _ _ _ _ _ _ _) as [st1 ret].
  rewrite register_methods_loop_errors.
  destruct (run st1 group rest) as [st2 n]. f_equal. lia.
Qed.




End Bulk.


(** ** More on the request processor *)

Lemma get_set_member_eq (o : JsonObject) (name : string) (node : JsonNode) :
  json_object_get_member (json_object_set_member o name node) name = Some node.
Proof.
  induction o as [|[k v] rest IH]; simpl.
  - by rewrite String.eqb_refl.
  - destruct (String.eqb k name) eqn:Hk; simpl; by rewrite Hk.
Qed.

Lemma get_set_member_ne (o : JsonObject) (name other : string) (node : JsonNode) :
  name <> other ->
  json_object_get_member (json_object_set_member o name node) other
  = json_object_get_member o other.
Proof.
  intros Hne. induction o as [|[k v] rest IH]; simpl.
  - by rewrite (proj2 (String.eqb_neq _ _) Hne).
  - destruct (String.eqb k name) eqn:Hk; simpl.
    + apply String.eqb_eq in Hk as ->.
      by rewrite (proj2 (String.eqb_neq _ _) Hne).
    + by rewrite IH.
Qed.

Lemma build_response_node_envelope (result error : option JsonNode)
    (id : option string) (nid : Z) :
  non_null result || non_null error = true ->
  is_envelope (melo_jsonrpc_build_response_node result error id nid) = true.
Proof.
  unfold melo_jsonrpc_build_response_node.
  destruct ((nid <? 0) || non_null id), error, result; simpl;
    done.
Qed.

Section MoreProcessor.

Context {World : Type}.
Implicit Type melo_jsonrpc_methods : option (gmap string (@MeloJSONRPCInternalMethod World)).
Implicit Type w : World.

Lemma is_request_method obj :
  is_request obj = true ->
  exists method, json_object_get_string_member obj "method" = Some method.
Proof.
  intros (method & _ & Hm & _)%is_request_inv. exists method.
  unfold json_object_get_string_member. by rewrite Hm.
Qed.

(** Every response is built by [melo_jsonrpc_build_response_node] from a
    result or an error. *)
Lemma parse_node_response_built melo_jsonrpc_methods node w response :
  (melo_jsonrpc_parse_node melo_jsonrpc_methods node w).2 = Some response ->
  exists result error id nid,
    response = melo_jsonrpc_build_response_node result error id nid
    /\ non_null result || non_null error = true.
Proof.
  assert (forall id nid, exists result error id' nid',
             method_not_found_response id nid
             = melo_jsonrpc_build_response_node result error id' nid'
             /\ non_null result || non_null error = true) as Hnf.
  { intros id nid. by eexists None, (Some _), id, nid. }
  destruct (is_notification node) eqn:Hnotif.
  - destruct node as [| | | | |obj|]; try discriminate.
    apply andb_true_iff in Hnotif as [Hreq Hid%negb_true_iff].
    destruct (is_request_method _ Hreq) as [method Hm].
    rewrite (parse_node_notification _ _ _ method Hreq Hm Hid).
    destruct (registry_lookup _ method) as [m|]; [|done].
    by destruct (callback m).
  - destruct (match node with JObject obj => is_request obj | _ => false end)
      eqn:Hreq.
    + destruct node as [| | | | |obj|]; try discriminate.
      simpl in Hnotif. rewrite Hreq in Hnotif. simpl in Hnotif.
      apply negb_false_iff in Hnotif.
      destruct (is_request_method _ Hreq) as [method Hm].
      rewrite (parse_node_with_id _ _ _ method Hreq Hm Hnotif).
      destruct (registry_lookup _ method) as [m|];
        [|simpl; intros [= <-]; apply Hnf].
      destruct (callback m) as [cb|]; [|simpl; intros [= <-]; apply Hnf].
      destruct (cb _ _ _ _ _) as [[w' [r|]] [e|]]; simpl; intros [= <-];
        try apply Hnf; by eexists _, _, _, _.
    + rewrite parse_node_not_a_request by (by destruct node).
      simpl. intros [= <-]. by eexists None, (Some _), None, (-1).
Qed.

Lemma parse_node_envelope melo_jsonrpc_methods node w response :
  (melo_jsonrpc_parse_node melo_jsonrpc_methods node w).2 = Some response ->
  is_envelope response = true.
Proof.
  intros (result & error & id & nid & -> & Hsome)%parse_node_response_built.
  by apply build_response_node_envelope.
Qed.

(** X1: whatever the processor answers is a response envelope: an object
    with the version "2.0", an [id] member and exactly one of [result] and
    [error]. *)
Theorem response_is_envelope melo_jsonrpc_methods node w response :
  (melo_jsonrpc_parse_node melo_jsonrpc_methods node w).2 = Some response ->
  is_envelope response = true.
Proof. apply parse_node_envelope. Qed.

Lemma parse_node_silent melo_jsonrpc_methods node w :
  (melo_jsonrpc_parse_node melo_jsonrpc_methods node w).2 = None
  <-> is_notification node = true.
Proof.
  split.
  - intros Hnone.
    destruct (match node with JObject obj => is_request obj | _ => false end)
      eqn:Hreq.
    + destruct node as [| | | | |obj|]; try discriminate.
      simpl. rewrite Hreq. simpl. apply negb_true_iff.
      destruct (json_object_has_member obj "id") eqn:Hid; [|done].
      destruct (is_request_method _ Hreq) as [method Hm].
      rewrite (parse_node_with_id _ _ _ method Hreq Hm Hid) in Hnone.
      destruct (registry_lookup _ method) as [m|]; [|done].
      destruct (callback m) as [cb|]; [|done].
      by destruct (cb _ _ _ _ _) as [[w' [r|]] [e|]].
    + rewrite parse_node_not_a_request in Hnone by (by destruct node).
      done.
  - destruct node as [| | | | |obj|]; try discriminate.
    unfold is_notification.
    intros [Hreq Hid%negb_true_iff]%andb_true_iff.
    destruct (is_request_method _ Hreq) as [method Hm].
    rewrite (parse_node_notification _ _ _ method Hreq Hm Hid).
    destruct (registry_lookup _ method) as [m|]; [|done].
    by destruct (callback m).
Qed.

(** X2: the processor stays silent for notifications and for nothing else:
    any other value, be it malformed, is answered. *)
Theorem silent_iff_notification melo_jsonrpc_methods node w :
  (melo_jsonrpc_parse_node melo_jsonrpc_methods node w).2 = None
  <-> is_notification node = true.
Proof. apply parse_node_silent. Qed.

(** X3: processing a value changes the state by one call of a callback, the
    call [request_call] describes, and only when the value is a request for
    a method that has a callback; it makes no difference to the state
    whether the request has an [id]. *)
Theorem state_after_parse_node melo_jsonrpc_methods node w :
  (melo_jsonrpc_parse_node melo_jsonrpc_methods node w).1 =
    match request_call melo_jsonrpc_methods node with
    | Some call => (call w).1.1
    | None => w
    end.
Proof.
  unfold request_call.
  destruct (match node with JObject obj => is_request obj | _ => false end)
    eqn:Hreq.
  - destruct node as [| | | | |obj|]; try discriminate. rewrite Hreq.
    destruct (is_request_method _ Hreq) as [method Hm]. rewrite Hm.
    destruct (json_object_has_member obj "id") eqn:Hid.
    + rewrite (parse_node_with_id _ _ _ method Hreq Hm Hid).
      destruct (registry_lookup _ method) as [m|]; [|done].
      destruct (callback m) as [cb|]; [|done].
      by destruct (cb _ _ _ _ _) as [[w' [r|]] [e|]].
    + rewrite (parse_node_notification _ _ _ method Hreq Hm Hid).
      destruct (registry_lookup _ method) as [m|]; [|done].
      by destruct (callback m).
  - rewrite parse_node_not_a_request by (by destruct node).
    destruct node as [| | | | |obj|]; try done. by rewrite Hreq.
Qed.

End MoreProcessor.

(** ** More on the registry *)

Lemma string_append_assoc (a b c : string) :
  (a +:+ b) +:+ c = a +:+ (b +:+ c).
Proof.
  induction a as [|x a IH]; [done|].
  change (String x ((a +:+ b) +:+ c) = String x (a +:+ (b +:+ c))).
  by rewrite IH.
Qed.

Section MoreRegistry.

Context {World : Type}.
Implicit Type melo_jsonrpc_methods : option (gmap string (@MeloJSONRPCInternalMethod World)).
Implicit Type w : World.

(** Two registries in which the same names lead to the same methods are
    the same registry. *)
Lemma registry_ext melo_jsonrpc_methods methods' :
  registry_wf melo_jsonrpc_methods ->
  registry_wf methods' ->
  (forall name, registry_lookup melo_jsonrpc_methods name
                = registry_lookup methods' name) ->
  melo_jsonrpc_methods = methods'.
Proof.
  unfold registry_wf.
  destruct melo_jsonrpc_methods as [t1|], methods' as [t2|];
    simpl; intros Hwf1 Hwf2 Hext.
  - f_equal. by apply map_eq.
  - destruct Hwf1. f_equal. by apply map_empty.
  - destruct Hwf2. f_equal. apply map_empty. intros i. by rewrite <- Hext.
  - done.
Qed.

Lemma register_method_lookup melo_jsonrpc_methods group method p r cb ud name :
  registry_lookup
    (melo_jsonrpc_register_method melo_jsonrpc_methods group method p r cb ud).1
    name =
    match registry_lookup melo_jsonrpc_methods name with
    | Some m0 => Some m0
    | None =>
        if decide (name = complete_method_name group method)
        then Some {| params := p; result := r; callback := cb; user_data := ud |}
        else None
    end.
Proof.
  destruct (registry_lookup melo_jsonrpc_methods
              (complete_method_name group method)) as [m0|] eqn:Hl.
  - rewrite (register_method_taken _ _ _ _ _ _ _ m0 Hl). simpl.
    destruct (registry_lookup melo_jsonrpc_methods name) eqn:Hn; [done|].
    case_decide; [congruence|done].
  - destruct (register_method_fresh _ group method p r cb ud Hl)
      as (table & -> & Hnew & Hother & _). simpl.
    case_decide as Hname.
    + subst name. by rewrite Hnew, Hl.
    + rewrite (Hother _ Hname).
      by destruct (registry_lookup melo_jsonrpc_methods name).
Qed.


(** X5: unregistering a method that was registered under a free name gives
    back the registry there was before, the NULL table included. *)
Theorem register_unregister melo_jsonrpc_methods group method p r cb ud :
  registry_wf melo_jsonrpc_methods ->
  registry_lookup melo_jsonrpc_methods (complete_method_name group method)
  = None ->
  melo_jsonrpc_unregister_method
    (melo_jsonrpc_register_method melo_jsonrpc_methods group method p r cb ud).1
    group method
  = melo_jsonrpc_methods.
Proof.
  intros Hwf Hfree. apply registry_ext; [apply registry_wf_unregister|done|].
  intros name. rewrite unregister_lookup, register_method_lookup.
  case_decide as Hname.
  - by subst name.
  - destruct (registry_lookup melo_jsonrpc_methods name); [done|].
    by rewrite decide_False.
Qed.

(** X6: the complete name does not tell where the group ends: once
    "group.infix" has a method [method], the group [group] cannot get a
    method named "infix.method". *)
Theorem qualified_names_collide melo_jsonrpc_methods group infix method
    p r cb ud p' r' cb' ud' :
  registry_lookup melo_jsonrpc_methods
    (complete_method_name (group +:+ "." +:+ infix) method) = None ->
  let first :=
    melo_jsonrpc_register_method melo_jsonrpc_methods
      (group +:+ "." +:+ infix) method p r cb ud in
  let second :=
    melo_jsonrpc_register_method first.1 group (infix +:+ "." +:+ method)
      p' r' cb' ud' in
  first.2 = true /\ second = (first.1, false).
Proof.
  intros Hfree first second. subst first second.
  destruct (register_method_fresh _ _ method p r cb ud Hfree)
    as (table & Hreg & Hnew & _). rewrite Hreg. simpl.
  split; [done|].
  apply (register_method_taken _ _ _ _ _ _ _
           {| params := p; result := r; callback := cb; user_data := ud |}).
  simpl. rewrite <- Hnew. f_equal. unfold complete_method_name.
  by rewrite !string_append_assoc.
Qed.

(** The id of the response, for every JSON type an [id] member can have. *)
Lemma response_id_of_member melo_jsonrpc_methods obj w id :
  is_request obj = true ->
  json_object_get_member obj "id" = Some id ->
  response_id (melo_jsonrpc_parse_node melo_jsonrpc_methods (JObject obj) w).2 =
    Some (match id with
          | JString s => JString s
          | _ => if json_node_get_int id <? 0 then JNull
                 else JInt (json_node_get_int id)
          end).
Proof.
  intros Hreq Hid.
  rewrite response_id_parse_node; [|done|
    by unfold json_object_has_member; rewrite Hid].
  unfold json_object_get_string_member, json_object_get_int_member.
  rewrite Hid. destruct id; simpl; rewrite ?orb_false_r; try reflexivity.
Qed.

(** X7: an [id] that is neither a string nor a number is not echoed: the
    response to a request with the id null, with an object or with an array
    as id carries the id 0, and the ids false and true come back as 0 and
    1. *)
Theorem odd_id_becomes_number melo_jsonrpc_methods obj w id :
  is_request obj = true ->
  json_object_get_member obj "id" = Some id ->
  let echo :=
    response_id (melo_jsonrpc_parse_node melo_jsonrpc_methods (JObject obj) w).2 in
  match id with
  | JNull | JObject _ | JArray _ => echo = Some (JInt 0)
  | JBool b => echo = Some (JInt (if b then 1 else 0))
  | _ => True
  end.
Proof.
  intros Hreq Hid echo. subst echo.
  rewrite (response_id_of_member _ _ _ id Hreq Hid).
  destruct id as [|[]| | | | |]; try exact I; reflexivity.
Qed.

End MoreRegistry.

(** ** More on bulk registration and on the dispatcher *)

Section MoreBulk.

Context {World : Type}.
Variable json_parser_load_from_data : string -> parse_result.
Variable json_generator_to_data : JsonNode -> string.
Implicit Type melo_jsonrpc_methods : option (gmap string (@MeloJSONRPCInternalMethod World)).
Implicit Type m : MeloJSONRPCMethod World.
Implicit Type w : World.

Local Abbreviation run := (melo_jsonrpc_register_methods json_parser_load_from_data).

Lemma register_methods_lookup group methods melo_jsonrpc_methods name :
  let after := (run melo_jsonrpc_methods group methods).1 in
  (forall old, registry_lookup melo_jsonrpc_methods name = Some old ->
              registry_lookup after name = Some old)
  /\ (name ∉ bulk_names group methods ->
      registry_lookup after name = registry_lookup melo_jsonrpc_methods name).
Proof.
  revert melo_jsonrpc_methods.
  induction methods as [|m rest IH]; intros st; [done|].
  simpl. rewrite register_methods_cons.
  destruct (entry_schemas _ m) as [[p r]|].
  - pose proof (register_method_lookup st group (Method.method m) p r
                  (Method.callback m) (Method.user_data m) name) as Hreg.
    destruct (melo_jsonrpc_register_method _ _ _ _ _ _ _) as [st1 ret].
    destruct (IH st1) as [Hkeep Hother]. simpl in *.
    destruct (run st1 group rest) as [st2 n]. simpl in *.
    split.
    + intros old Hm0. apply Hkeep. by rewrite Hreg, Hm0.
    + intros [Hne Hrest]%not_elem_of_cons. rewrite (Hother Hrest), Hreg.
      destruct (registry_lookup st name); [done|]. by rewrite decide_False.
  - destruct (IH st) as [Hkeep Hother]. split; [done|].
    intros [_ Hrest]%not_elem_of_cons. by apply Hother.
Qed.

Lemma register_methods_errors_le group methods melo_jsonrpc_methods :
  ((run melo_jsonrpc_methods group methods).2 <= length methods)%nat.
Proof.
  revert melo_jsonrpc_methods.
  induction methods as [|m rest IH]; intros st; [done|].
  rewrite register_methods_cons.
  destruct (entry_schemas _ m) as [[p r]|].
  - destruct (melo_jsonrpc_register_method _ _ _ _ _ _ _) as [st1 ret].
    specialize (IH st1). destruct (run st1 group rest) as [st2 n].
    simpl in *. destruct ret; lia.
  - specialize (IH st). simpl. lia.
Qed.

Lemma register_methods_new_names group methods melo_jsonrpc_methods name :
  registry_lookup (run melo_jsonrpc_methods group methods).1 name <> None ->
  registry_lookup melo_jsonrpc_methods name <> None
  \/ name ∈ bulk_names group methods.
Proof.
  intros Hafter.
  destruct (decide (name ∈ bulk_names group methods)) as [|Hout]; [by right|].
  left. by rewrite <- (proj2 (register_methods_lookup group methods _ name) Hout).
Qed.

(** X8: a bulk registration only adds: every method registered before is
    still registered, unchanged, afterwards; every name registered
    afterwards was registered before or is the complete name of an entry;
    and the count of failures is at most the number of entries. *)
Theorem bulk_register_only_adds melo_jsonrpc_methods group methods :
  let after := run melo_jsonrpc_methods group methods in
  (forall name old,
      registry_lookup melo_jsonrpc_methods name = Some old ->
      registry_lookup after.1 name = Some old)
  /\ (forall name,
        registry_lookup after.1 name <> None ->
        registry_lookup melo_jsonrpc_methods name <> None
        \/ name ∈ bulk_names group methods)
  /\ (after.2 <= length methods)%nat.
Proof.
  split; [|split].
  - intros name old. apply register_methods_lookup.
  - intros name. apply register_methods_new_names.
  - apply register_methods_errors_le.
Qed.

Lemma unregister_methods_lookup melo_jsonrpc_methods group methods name :
  registry_lookup
    (melo_jsonrpc_unregister_methods melo_jsonrpc_methods group methods) name =
    if decide (name ∈ bulk_names group methods) then None
    else registry_lookup melo_jsonrpc_methods name.
Proof.
  revert melo_jsonrpc_methods.
  induction methods as [|m rest IH]; intros st.
  - destruct (decide (name ∈ bulk_names group [])) as [Hin|]; [|done].
    by apply elem_of_nil in Hin.
  - change (melo_jsonrpc_unregister_methods st group (m :: rest))
      with (melo_jsonrpc_unregister_methods
              (melo_jsonrpc_unregister_method st group (Method.method m))
              group rest).
    change (bulk_names group (m :: rest))
      with (complete_method_name group (Method.method m)
            :: bulk_names group rest).
    rewrite IH, unregister_lookup.
    destruct (decide (name ∈ bulk_names group rest)) as [Hin|Hout].
    + rewrite decide_True; [done|]. by right.
    + case_decide as Hname.
      * subst name. rewrite decide_True; [done|]. by left.
      * rewrite decide_False; [done|].
        intros [?|?]%elem_of_cons; [congruence|done].
Qed.

Lemma registry_wf_unregister_methods melo_jsonrpc_methods group methods :
  registry_wf melo_jsonrpc_methods ->
  registry_wf (melo_jsonrpc_unregister_methods melo_jsonrpc_methods group methods).
Proof.
  revert melo_jsonrpc_methods.
  induction methods as [|m rest IH]; intros st Hwf; simpl; [done|].
  apply IH, registry_wf_unregister.
Qed.

(** X9: unregistering in bulk removes the complete names of its entries,
    the ones that are not registered being passed over, and leaves every
    other method as it is. *)
Theorem bulk_unregister_removes melo_jsonrpc_methods group methods name :
  registry_lookup
    (melo_jsonrpc_unregister_methods melo_jsonrpc_methods group methods) name =
    if decide (name ∈ bulk_names group methods) then None
    else registry_lookup melo_jsonrpc_methods name.
Proof. apply unregister_methods_lookup. Qed.

(** X10: registering entries in bulk and unregistering the same entries
    gives back the registry there was before, provided none of their names
    was registered: whether an entry was registered, passed over for its
    schema or refused as a duplicate of an earlier entry makes no
    difference. *)
Theorem bulk_register_unregister melo_jsonrpc_methods group methods :
  registry_wf melo_jsonrpc_methods ->
  Forall (fun name => registry_lookup melo_jsonrpc_methods name = None)
    (bulk_names group methods) ->
  melo_jsonrpc_unregister_methods
    (run melo_jsonrpc_methods group methods).1 group methods
  = melo_jsonrpc_methods.
Proof.
  intros Hwf Hfresh. apply registry_ext; [|done|].
  - destruct methods as [|m rest]; [done|]. simpl.
    apply registry_wf_unregister_methods, registry_wf_unregister.
  - intros name. rewrite unregister_methods_lookup.
    case_decide as Hin.
    + rewrite Forall_forall in Hfresh. by rewrite Hfresh.
    + by apply register_methods_lookup.
Qed.

(** The elements of a batch that have no response are its notifications. *)
Lemma element_responses_omap melo_jsonrpc_methods elements w :
  let responses := (element_responses melo_jsonrpc_methods elements w).2 in
  length (omap id responses)
  = length (List.filter (fun e => negb (is_notification e)) elements)
  /\ Forall (fun r => is_envelope r = true) (omap id responses).
Proof.
  revert w. induction elements as [|element rest IH]; intros w; simpl.
  - by split.
  - pose proof (parse_node_silent melo_jsonrpc_methods element w) as Hs.
    pose proof (parse_node_envelope melo_jsonrpc_methods element w) as He.
    destruct (melo_jsonrpc_parse_node _ element w) as [w1 response].
    destruct (IH w1) as [Hlen Henv].
    destruct (element_responses _ rest w1) as [w2 responses]. simpl in *.
    destruct response as [r|].
    + destruct (is_notification element); [by pose proof (proj2 Hs eq_refl)|].
      simpl. split; [f_equal; exact Hlen|]. constructor; [by apply He|exact Henv].
    + rewrite (proj1 Hs eq_refl). by split.
Qed.

Lemma parse_batch_answers melo_jsonrpc_methods elements w :
  let res_array := (parse_batch melo_jsonrpc_methods elements [] w).2 in
  length res_array
  = length (List.filter (fun e => negb (is_notification e)) elements)
  /\ Forall (fun r => is_envelope r = true) res_array.
Proof.
  rewrite parse_batch_responses.
  pose proof (element_responses_omap melo_jsonrpc_methods elements w) as H.
  by destruct (element_responses _ elements w) as [w' responses].
Qed.

(** X11: the array the batch loop fills holds one response envelope for
    each element that is not a notification, malformed elements included,
    and nothing else. *)
Theorem batch_answers melo_jsonrpc_methods elements w :
  let res_array := (parse_batch melo_jsonrpc_methods elements [] w).2 in
  length res_array
  = length (List.filter (fun e => negb (is_notification e)) elements)
  /\ Forall (fun r => is_envelope r = true) res_array.
Proof. apply parse_batch_answers. Qed.

(** X12: the dispatcher returns no text in two cases only: the document is
    a notification, or it is a batch with elements all of which are
    notifications.  Text that is no JSON, an empty document, an empty
    batch and any other value are answered. *)
Theorem dispatcher_silent_iff melo_jsonrpc_methods request w :
  (melo_jsonrpc_parse_request json_parser_load_from_data json_generator_to_data
     melo_jsonrpc_methods request w).2 = None
  <-> match json_parser_load_from_data request with
      | ParseRoot (JObject obj) => is_notification (JObject obj) = true
      | ParseRoot (JArray (element :: rest)) =>
          forallb is_notification (element :: rest) = true
      | _ => False
      end.
Proof.
  unfold melo_jsonrpc_parse_request.
  destruct (json_parser_load_from_data request) as [| |req]; [done|done|].
  destruct req as [| | | | |obj|elements]; try done.
  - rewrite <- (parse_node_silent melo_jsonrpc_methods (JObject obj) w).
    destruct (melo_jsonrpc_parse_node _ (JObject obj) w) as [w' [res|]];
      simpl; done.
  - destruct elements as [|element rest]; [done|].
    change (json_array_get_length (element :: rest) =? 0)%nat with false.
    cbv iota.
    pose proof (parse_batch_answers melo_jsonrpc_methods (element :: rest) w)
      as [Hlen _].
    destruct (parse_batch _ (element :: rest) [] w) as [w' res_array].
    cbn [snd] in Hlen. unfold json_array_get_length.
    assert (length (List.filter (fun e => negb (is_notification e))
                      (element :: rest)) = 0%nat
            <-> forallb is_notification (element :: rest) = true) as Hall.
    { generalize (element :: rest). intros l.
      induction l as [|e l IH]; simpl; [done|].
      destruct (is_notification e); simpl; [done|]. split; discriminate. }
    rewrite <- Hall, <- Hlen.
    destruct res_array; simpl; split; done.
Qed.

End MoreBulk.

(** ** More on the parameter validator *)

(** A value that passes the check is stored as it is. *)
Lemma add_node_stores node schema obj array out :
  melo_jsonrpc_add_node node schema obj array = Some out ->
  exists name,
    json_object_get_string_member schema "name" = Some name
    /\ out = add_to obj array
               (fun o => json_object_set_member o name node)
               (fun a => json_array_add_element a node).
Proof.
  unfold melo_jsonrpc_add_node.
  destruct (json_object_get_string_member schema "name") as [s_name|]; [|done].
  destruct (json_object_get_string_member schema "type") as [s_type|]; [|done].
  intros H. exists s_name. split; [done|].
  repeat (match type of H with
          | context [Ascii.eqb ?c ?x] => destruct (Ascii.eqb c x)
          end);
    destruct node; simpl in H; try discriminate H;
    injection H as <-; reflexivity.
Qed.

Lemma entry_accepts_add_node element node obj array :
  entry_accepts element node = true <->
  exists schema,
    json_node_get_object element = Some schema
    /\ is_Some (melo_jsonrpc_add_node node schema obj array).
Proof.
  unfold entry_accepts.
  destruct (json_node_get_object element) as [schema|].
  - rewrite andb_true_iff. split.
    + intros [Hname Hty]. exists schema. split; [done|].
      apply add_node_Some. split; [|done].
      by destruct (json_object_get_string_member schema "name").
    + intros (? & [= <-] & [Hname Hty]%add_node_Some). split; [|done].
      by destruct Hname as [? ->].
  - split; [done|]. by intros (? & [=] & _).
Qed.

(** *** Arrays of parameters *)

Lemma array_loop_mode a n schema_params i obj array obj' array' :
  array_loop a n schema_params i obj array = Some (obj', array') ->
  non_null obj' = non_null obj /\ non_null array' = non_null array.
Proof.
  revert i obj array.
  induction schema_params as [|element rest IH]; intros i obj array; simpl.
  - by intros [= <- <-].
  - destruct (json_node_get_object element) as [schema|]; [|done].
    destruct (n <=? i)%nat.
    + destruct (json_object_get_member schema "required") as [flag|]; [|done].
      destruct (json_node_get_boolean flag); [done|]. by intros [= <- <-].
    + destruct (json_array_get_element a i) as [node|]; [|done].
      destruct (melo_jsonrpc_add_node node schema obj array)
        as [[obj1 array1]|] eqn:Hadd; [|done].
      intros [Ho Ha]%IH. apply add_node_mode in Hadd as [? ?].
      split; congruence.
Qed.

(** Out of values, a walk over an array of parameters stops at an optional
    entry and fails at any other. *)
Lemma array_loop_end a element rest i obj array :
  (length a <= i)%nat ->
  array_loop a (length a) (element :: rest) i obj array
  = if entry_optional element then Some (obj, array) else None.
Proof.
  intros Hi. simpl. unfold entry_optional.
  destruct (json_node_get_object element) as [schema|]; [|done].
  rewrite (proj2 (Nat.leb_le _ _) Hi).
  destruct (json_object_get_member schema "required") as [flag|]; [|done].
  by destruct (json_node_get_boolean flag).
Qed.

(** What a walk over an array of parameters needs to succeed. *)
Lemma array_loop_Some a schema_params i obj array :
  (i <= length a)%nat ->
  is_Some (array_loop a (length a) schema_params i obj array) <->
  (forall j element v,
      schema_params !! j = Some element -> a !! (i + j)%nat = Some v ->
      entry_accepts element v = true)
  /\ ((length a < i + length schema_params)%nat ->
      exists element,
        schema_params !! (length a - i)%nat = Some element
        /\ entry_optional element = true).
Proof.
  revert i obj array.
  induction schema_params as [|element rest IH]; intros i obj array Hi.
  { simpl. split; [|by eauto]. intros _. split; [done|]. lia. }
  destruct (length a <=? i)%nat eqn:Hend.
  - apply Nat.leb_le in Hend. assert (i = length a) as -> by lia.
    rewrite array_loop_end by done. rewrite Nat.sub_diag.
    assert (forall j, a !! (length a + j)%nat = (None : option JsonNode)) as Hout
      by (intros j; apply lookup_ge_None; lia).
    destruct (entry_optional element) eqn:Hoptional.
    + split; [|by eauto]. intros _. split.
      * intros j e v _ Hv. by rewrite Hout in Hv.
      * intros _. by exists element.
    + split; [by intros [? [=]]|].
      intros [_ Hopt]. destruct Hopt as (e & He & Hf); [simpl; lia|].
      simpl in He. injection He as <-. congruence.
  - apply Nat.leb_gt in Hend.
    destruct (lookup_lt_is_Some_2 a i Hend) as [v Hv].
    simpl array_loop. rewrite (proj2 (Nat.leb_gt _ _) Hend).
    unfold json_array_get_element. rewrite Hv.
    assert ((forall j e v',
                (element :: rest) !! j = Some e -> a !! (i + j)%nat = Some v' ->
                entry_accepts e v' = true)
            <-> entry_accepts element v = true
                /\ (forall j e v',
                       rest !! j = Some e -> a !! (S i + j)%nat = Some v' ->
                       entry_accepts e v' = true)) as Hsplit.
    { split.
      - intros H. split.
        + apply (H 0%nat); [done|]. by rewrite Nat.add_0_r.
        + intros j e v' He Hv'. apply (H (S j)); [done|].
          by replace (i + S j)%nat with (S i + j)%nat by lia.
      - intros [H0 Hrest] [|j] e v' He Hv'.
        + injection He as <-. rewrite Nat.add_0_r in Hv'. congruence.
        + apply (Hrest j); [done|].
          by replace (S i + j)%nat with (i + S j)%nat by lia. }
    assert (((length a < i + length (element :: rest))%nat ->
             exists e, (element :: rest) !! (length a - i)%nat = Some e
                       /\ entry_optional e = true)
            <-> ((length a < S i + length rest)%nat ->
                 exists e, rest !! (length a - S i)%nat = Some e
                           /\ entry_optional e = true)) as Hopt.
    { replace (length a - i)%nat with (S (length a - S i)) by lia.
      simpl. by replace (i + S (length rest))%nat
               with (S (i + length rest)) by lia. }
    rewrite Hsplit, Hopt.
    rewrite (entry_accepts_add_node element v obj array).
    destruct (json_node_get_object element) as [schema|].
    + destruct (melo_jsonrpc_add_node v schema obj array)
        as [[obj1 array1]|] eqn:Hadd.
      * rewrite (IH (S i) obj1 array1) by lia.
        split.
        -- intros [HA HB]. split; [split; [|done]|done].
           exists schema. split; [done|]. by eexists.
        -- by intros [[_ HA] HB].
      * split; [by intros [? [=]]|].
        intros [[(s0 & Hs & Hsome) _] _]. injection Hs as <-.
        rewrite Hadd in Hsome. by destruct Hsome.
    + split; [by intros [? [=]]|]. by intros [[(? & [=] & _) _] _].
Qed.

(** The array a walk over an array of parameters fills. *)
Lemma array_loop_to_array a schema_params i obj (acc : JsonArray) obj' array' :
  array_loop a (length a) schema_params i obj (Some acc) = Some (obj', array') ->
  non_null obj = false ->
  array' = Some (acc ++ take (length schema_params) (drop i a))%list.
Proof.
  revert i acc.
  induction schema_params as [|element rest IH]; intros i acc; simpl.
  - intros [= _ <-] _. by rewrite app_nil_r.
  - destruct (json_node_get_object element) as [schema|]; [|done].
    destruct (length a <=? i)%nat eqn:Hend.
    + destruct (json_object_get_member schema "required") as [flag|]; [|done].
      destruct (json_node_get_boolean flag); [done|]. intros [= _ <-] _.
      apply Nat.leb_le in Hend. rewrite drop_ge by done.
      by rewrite app_nil_r.
    + unfold json_array_get_element.
      destruct (a !! i) as [node|] eqn:Hnode; [|done].
      destruct (melo_jsonrpc_add_node node schema obj (Some acc))
        as [[obj1 array1]|] eqn:Hadd; [|done].
      intros Hloop Hobj.
      apply add_node_stores in Hadd as (name & _ & Hout).
      destruct obj; [done|]. simpl in Hout. injection Hout as -> ->.
      apply IH in Hloop as ->; [|done].
      rewrite (drop_S _ _ _ Hnode). simpl.
      unfold json_array_add_element. by rewrite <- app_assoc.
Qed.

Lemma array_loop_agree a schema_params obj array obj' array' :
  non_null (array_loop a (length a) schema_params 0 obj array)
  = non_null (array_loop a (length a) schema_params 0 obj' array').
Proof.
  pose proof (array_loop_Some a schema_params 0 obj array (Nat.le_0_l _)) as H1.
  pose proof (array_loop_Some a schema_params 0 obj' array' (Nat.le_0_l _)) as H2.
  destruct (array_loop a _ _ 0 obj array) as [out|],
           (array_loop a _ _ 0 obj' array') as [out'|]; simpl; try done.
  - destruct (proj2 H2 (proj1 H1 ltac:(eauto))) as [? [=]].
  - destruct (proj2 H1 (proj1 H2 ltac:(eauto))) as [? [=]].
Qed.

(** X13: what [check] accepts of an array of parameters.  Every value
    that has a schema entry at its position must have the type the entry
    declares, the entry being an object with a name; and if the values run
    out before the entries, the first entry without value must be
    optional.  Nothing is asked of the entries after that one, required or
    not, nor of the values beyond the schema. *)
Theorem positional_check_iff (schema_params a : JsonArray) (error : error_slot) :
  (melo_jsonrpc_check_params (Some schema_params) (Some (JArray a)) error).1
  = true
  <-> (forall i element v,
          schema_params !! i = Some element -> a !! i = Some v ->
          entry_accepts element v = true)
      /\ ((length a < length schema_params)%nat ->
          exists element,
            schema_params !! length a = Some element
            /\ entry_optional element = true).
Proof.
  pose proof (array_loop_Some a schema_params 0 None None (Nat.le_0_l _)) as H.
  rewrite Nat.sub_0_r in H. simpl in H. rewrite <- H.
  unfold melo_jsonrpc_check_params, melo_jsonrpc_get_json_node,
    json_array_get_length.
  destruct (array_loop a (length a) schema_params 0 None None); simpl.
  - split; [by eauto|done].
  - split; [done|by intros [? [=]]].
Qed.

(** X14: on an array of parameters the three operations agree: [check]
    returns TRUE exactly when the conversion to an object returns an
    object and exactly when the conversion to an array returns an array,
    and all three leave the same error. *)
Theorem positional_operations_agree (schema_params a : JsonArray)
    (error : error_slot) :
  let checked :=
    melo_jsonrpc_check_params (Some schema_params) (Some (JArray a)) error in
  let object :=
    melo_jsonrpc_get_object (Some schema_params) (Some (JArray a)) error in
  let array :=
    melo_jsonrpc_get_array (Some schema_params) (Some (JArray a)) error in
  checked.1 = non_null object.1 /\ checked.1 = non_null array.1
  /\ object.2 = checked.2 /\ array.2 = checked.2.
Proof.
  unfold melo_jsonrpc_check_params, melo_jsonrpc_get_object,
    melo_jsonrpc_get_array, melo_jsonrpc_get_json_node, json_array_get_length.
  pose proof (array_loop_agree a schema_params None None (Some []) None) as Ho.
  pose proof (array_loop_agree a schema_params None None None (Some [])) as Ha.
  destruct (array_loop a _ _ 0 None None) as [out|];
    destruct (array_loop a _ _ 0 (Some []) None) as [[o1 a1]|] eqn:Hobject;
    destruct (array_loop a _ _ 0 None (Some [])) as [[o2 a2]|] eqn:Harray;
    try discriminate; simpl; [|done].
  apply array_loop_mode in Hobject as [-> _].
  apply array_loop_mode in Harray as [_ ->]. done.
Qed.

(** X15: the conversion of an array of parameters to an array, when it
    succeeds, returns the parameters themselves, cut off where the schema
    ends; the error slot is left alone. *)
Theorem positional_to_array (schema_params a array : JsonArray)
    (error error' : error_slot) :
  melo_jsonrpc_get_array (Some schema_params) (Some (JArray a)) error
  = (Some array, error') ->
  array = take (length schema_params) a /\ error' = error.
Proof.
  unfold melo_jsonrpc_get_array, melo_jsonrpc_get_json_node,
    json_array_get_length.
  destruct (array_loop a _ _ 0 None (Some [])) as [[o1 a1]|] eqn:Hloop;
    [|done].
  apply array_loop_to_array in Hloop; [|done]. subst a1. simpl.
  by intros [= <- <-].
Qed.

(** *** Objects of parameters *)

Lemma entry_name_object element schema :
  json_node_get_object element = Some schema ->
  entry_name element = json_object_get_string_member schema "name".
Proof. unfold entry_name. by intros ->. Qed.

Lemma object_loop_mode o schema_params obj array obj' array' :
  object_loop o schema_params obj array = Some (obj', array') ->
  non_null obj' = non_null obj /\ non_null array' = non_null array.
Proof.
  revert obj array.
  induction schema_params as [|element rest IH]; intros obj array; simpl.
  - by intros [= <- <-].
  - destruct (json_node_get_object element) as [schema|]; [|done].
    destruct (json_object_get_string_member schema "name") as [name|]; [|done].
    destruct (json_object_get_member o name) as [node|].
    + destruct (melo_jsonrpc_add_node node schema obj array)
        as [[obj1 array1]|] eqn:Hadd; [|done].
      intros [Ho Ha]%IH. apply add_node_mode in Hadd as [? ?].
      split; congruence.
    + destruct (json_object_get_member schema "required") as [flag|]; [|done].
      destruct (json_node_get_boolean flag); [done|].
      destruct (non_null obj) eqn:Hobj;
        [intros [Ho Ha]%IH; split; congruence|].
      destruct (non_null array) eqn:Harray;
        [intros [= <- <-]; split; congruence|].
      destruct (melo_jsonrpc_add_node flag schema obj array)
        as [[obj1 array1]|] eqn:Hadd; [|done].
      intros [Ho Ha]%IH. apply add_node_mode in Hadd as [? ?].
      split; congruence.
Qed.

(** What the conversion of an object of parameters to an object needs. *)
Lemma object_loop_to_object_Some o schema_params obj array :
  non_null obj = true ->
  is_Some (object_loop o schema_params obj array)
  <-> forallb (keyed_entry_ok o) schema_params = true.
Proof.
  revert obj array.
  induction schema_params as [|element rest IH]; intros obj array Hobj.
  { simpl. split; [done|by eauto]. }
  simpl. unfold keyed_entry_ok at 1, entry_name, entry_optional.
  pose proof (entry_accepts_add_node element) as Haccepts.
  destruct (json_node_get_object element) as [schema|];
    [|split; [by intros [? [=]]|done]].
  destruct (json_object_get_string_member schema "name") as [name|];
    [|split; [by intros [? [=]]|done]].
  destruct (json_object_get_member o name) as [node|].
  - specialize (Haccepts node obj array).
    destruct (melo_jsonrpc_add_node node schema obj array)
      as [[obj1 array1]|] eqn:Hadd.
    + rewrite (proj2 Haccepts) by (by eexists; split; [|eexists]).
      apply add_node_mode in Hadd as [Hobj1 _].
      apply IH. congruence.
    + destruct (entry_accepts element node) eqn:Hacc.
      * destruct (proj1 Haccepts eq_refl) as (s0 & [= <-] & [? Hs]).
        congruence.
      * split; [by intros [? [=]]|done].
  - destruct (json_object_get_member schema "required") as [flag|];
      [|split; [by intros [? [=]]|done]].
    destruct (json_node_get_boolean flag); simpl;
      [split; [by intros [? [=]]|done]|].
    rewrite Hobj. by apply IH.
Qed.

Lemma schema_names_cons element rest :
  schema_names (element :: rest) =
    match entry_name element with
    | Some name => name :: schema_names rest
    | None => schema_names rest
    end.
Proof. reflexivity. Qed.

(** The members the conversion of an object of parameters to an object
    sets: those of the parameters under the names of the schema. *)
Lemma object_loop_to_object_members o schema_params (acc : JsonObject) array
    obj' array' :
  object_loop o schema_params (Some acc) array = Some (obj', array') ->
  (forall name, json_object_get_member acc name = None
                \/ json_object_get_member acc name
                   = json_object_get_member o name) ->
  exists res,
    obj' = Some res
    /\ forall name,
      json_object_get_member res name =
        if decide (name ∈ schema_names schema_params)
        then json_object_get_member o name
        else json_object_get_member acc name.
Proof.
  revert acc array.
  induction schema_params as [|element rest IH]; intros acc array.
  { cbn [object_loop]. intros [= <- <-] _. exists acc. split; [done|].
    intros name.
    destruct (decide (name ∈ schema_names [])) as [Hin|]; [|done].
    by apply elem_of_nil in Hin. }
  cbn [object_loop]. rewrite schema_names_cons.
  destruct (json_node_get_object element) as [schema|] eqn:Helement; [|done].
  rewrite (entry_name_object _ _ Helement).
  destruct (json_object_get_string_member schema "name") as [name0|] eqn:Hname0;
    [|done].
  destruct (json_object_get_member o name0) as [node|] eqn:Hnode.
  - destruct (melo_jsonrpc_add_node node schema (Some acc) array)
      as [[obj1 array1]|] eqn:Hadd; [|done].
    apply add_node_stores in Hadd as (name & Hname & Hout).
    rewrite Hname0 in Hname. injection Hname as <-.
    simpl in Hout. injection Hout as -> ->.
    intros Hloop Hacc.
    apply IH in Hloop as (res & -> & Hres).
    + exists res. split; [done|]. intros name. rewrite Hres.
      destruct (decide (name ∈ schema_names rest)) as [Hin|Hout].
      * rewrite decide_True; [done|]. by right.
      * destruct (decide (name0 = name)) as [<-|Hne].
        -- rewrite get_set_member_eq, decide_True; [done|]. by left.
        -- rewrite get_set_member_ne by done.
           rewrite decide_False; [done|].
           intros [?|?]%elem_of_cons; [congruence|done].
    + intros name. destruct (decide (name0 = name)) as [<-|Hne].
      * right. by rewrite get_set_member_eq.
      * rewrite get_set_member_ne by done. apply Hacc.
  - destruct (json_object_get_member schema "required") as [flag|]; [|done].
    destruct (json_node_get_boolean flag); [done|]. cbn [non_null].
    intros Hloop Hacc.
    apply IH in Hloop as (res & -> & Hres); [|done].
    exists res. split; [done|]. intros name. rewrite Hres.
    destruct (decide (name ∈ schema_names rest)) as [Hin|Hout].
    + rewrite decide_True; [done|]. by right.
    + destruct (decide (name0 = name)) as [<-|Hne].
      * rewrite decide_True by (by left).
        destruct (Hacc name0) as [->| ->]; done.
      * rewrite decide_False; [done|].
        intros [?|?]%elem_of_cons; [congruence|done].
Qed.

(** The array the conversion of an object of parameters to an array
    fills. *)
Lemma object_loop_to_array o schema_params (acc : JsonArray) obj' array' :
  object_loop o schema_params None (Some acc) = Some (obj', array') ->
  array' = Some (acc ++ prefix_values o schema_params)%list.
Proof.
  revert acc.
  induction schema_params as [|element rest IH]; intros acc; simpl.
  - intros [= _ <-]. by rewrite app_nil_r.
  - destruct (json_node_get_object element) as [schema|] eqn:Helement; [|done].
    rewrite (entry_name_object _ _ Helement).
    destruct (json_object_get_string_member schema "name") as [name|] eqn:Hname;
      [|done].
    destruct (json_object_get_member o name) as [node|].
    + destruct (melo_jsonrpc_add_node node schema None (Some acc))
        as [[obj1 array1]|] eqn:Hadd; [|done].
      apply add_node_stores in Hadd as (? & _ & Hout).
      simpl in Hout. injection Hout as -> ->.
      intros ->%IH. unfold json_array_add_element. by rewrite <- app_assoc.
    + destruct (json_object_get_member schema "required") as [flag|]; [|done].
      destruct (json_node_get_boolean flag); [done|]. simpl.
      intros [= _ <-]. by rewrite app_nil_r.
Qed.

(** X16: what the conversion of an object of parameters to an object
    accepts: every schema entry must be an object with a name, and either
    its value is there and has the declared type, or its value is missing
    and the entry is optional.  Members the schema does not name are not
    looked at. *)
Theorem keyed_to_object_iff (schema_params : JsonArray) (o : JsonObject)
    (error : error_slot) :
  non_null
    (melo_jsonrpc_get_object (Some schema_params) (Some (JObject o)) error).1
  = true
  <-> forallb (keyed_entry_ok o) schema_params = true.
Proof.
  rewrite <- (object_loop_to_object_Some o schema_params (Some []) None eq_refl).
  unfold melo_jsonrpc_get_object, melo_jsonrpc_get_json_node.
  destruct (object_loop o schema_params (Some []) None) as [[o1 a1]|] eqn:Hloop;
    simpl.
  - apply object_loop_mode in Hloop as [-> _]. split; [by eauto|done].
  - split; [done|by intros [? [=]]].
Qed.

(** X17: the object that the conversion of an object of parameters
    returns is the parameters restricted to the names of the schema: under
    such a name it has what the parameters have there, if anything, and it
    has no other member. *)
Theorem keyed_to_object_projects (schema_params : JsonArray) (o res : JsonObject)
    (error error' : error_slot) :
  melo_jsonrpc_get_object (Some schema_params) (Some (JObject o)) error
  = (Some res, error') ->
  forall name,
    json_object_get_member res name =
      if decide (name ∈ schema_names schema_params)
      then json_object_get_member o name else None.
Proof.
  unfold melo_jsonrpc_get_object, melo_jsonrpc_get_json_node.
  destruct (object_loop o schema_params (Some []) None) as [[o1 a1]|] eqn:Hloop;
    [|done].
  apply object_loop_to_object_members in Hloop as (res' & -> & Hres);
    [|by left].
  simpl. intros [= <- _] name. by rewrite Hres.
Qed.

(** X18: the array that the conversion of an object of parameters returns
    lists the values of the schema entries in the order of the schema and
    ends before the first entry without value, whatever follows it. *)
Theorem keyed_to_array (schema_params : JsonArray) (o : JsonObject)
    (array : JsonArray) (error error' : error_slot) :
  melo_jsonrpc_get_array (Some schema_params) (Some (JObject o)) error
  = (Some array, error') ->
  array = prefix_values o schema_params /\ error' = error.
Proof.
  unfold melo_jsonrpc_get_array, melo_jsonrpc_get_json_node.
  destruct (object_loop o schema_params None (Some [])) as [[o1 a1]|] eqn:Hloop;
    [|done].
  apply object_loop_to_array in Hloop as ->. simpl. by intros [= <- <-].
Qed.

(** The members the conversion of an array of parameters to an object
    sets. *)
Lemma array_loop_to_object a schema_params i (acc : JsonObject) array
    obj' array' :
  array_loop a (length a) schema_params i (Some acc) array
  = Some (obj', array') ->
  exists res,
    obj' = Some res
    /\ forall name,
      (forall j e,
          schema_params !! j = Some e -> entry_name e = Some name ->
          (i + j < length a)%nat ->
          (forall j' e',
              schema_params !! j' = Some e' -> entry_name e' = Some name ->
              (i + j' < length a)%nat -> j' = j) ->
          json_object_get_member res name = a !! (i + j)%nat)
      /\ ((forall j e,
              schema_params !! j = Some e -> (i + j < length a)%nat ->
              entry_name e <> Some name) ->
          json_object_get_member res name = json_object_get_member acc name).
Proof.
  revert i acc array.
  induction schema_params as [|element rest IH]; intros i acc array.
  { cbn [array_loop]. intros [= <- <-]. exists acc. split; [done|].
    intros name. split; [|done]. intros j e He. by destruct j. }
  destruct (length a <=? i)%nat eqn:Hend.
  - apply Nat.leb_le in Hend. rewrite array_loop_end by done.
    destruct (entry_optional element); [|done].
    intros [= <- <-]. exists acc. split; [done|].
    intros name. split; [|done]. intros j e _ _ Hj. lia.
  - cbn [array_loop]. rewrite Hend. apply Nat.leb_gt in Hend.
    destruct (json_node_get_object element) as [schema|] eqn:Helement; [|done].
    unfold json_array_get_element.
    destruct (a !! i) as [v|] eqn:Hv; [|done].
    destruct (melo_jsonrpc_add_node v schema (Some acc) array)
      as [[obj1 array1]|] eqn:Hadd; [|done].
    apply add_node_stores in Hadd as (name0 & Hname0 & Hout).
    simpl in Hout. injection Hout as -> ->.
    rewrite <- (entry_name_object _ _ Helement) in Hname0.
    intros (res & -> & Hres)%IH. exists res. split; [done|].
    intros name. destruct (Hres name) as [Hin Hout]. split.
    + intros [|j] e He Hname Hj Huniq.
      * injection He as <-. rewrite Nat.add_0_r, Hv.
        assert (name = name0) as -> by congruence.
        destruct (Hres name0) as [_ Hout0]. rewrite Hout0.
        -- apply get_set_member_eq.
        -- intros j' e' He' Hj' Hname'.
           specialize (Huniq (S j') e' He' Hname' ltac:(lia)). lia.
      * replace (i + S j)%nat with (S i + j)%nat by lia.
        apply (Hin j e); [done|done|lia|].
        intros j' e' He' Hname' Hj'.
        specialize (Huniq (S j') e' He' Hname' ltac:(lia)). lia.
    + intros Hnone. rewrite Hout.
      * apply get_set_member_ne. intros <-.
        apply (Hnone 0%nat element); [done|lia|done].
      * intros j e He Hj. apply (Hnone (S j) e); [done|lia].
Qed.

(** X19: converted with the same schema, an array of parameters gives an
    object and an array that agree: if no two schema entries have the same
    name, the member of the object under the name of the entry at a
    position is the element of the array at that position, and where the
    array has no element the object has no member of that name. *)
Theorem positional_object_array_agree (schema_params a : JsonArray)
    (object : JsonObject) (array : JsonArray) (error e1 e2 : error_slot) :
  melo_jsonrpc_get_object (Some schema_params) (Some (JArray a)) error
  = (Some object, e1) ->
  melo_jsonrpc_get_array (Some schema_params) (Some (JArray a)) error
  = (Some array, e2) ->
  distinct_names schema_params ->
  forall i element name,
    schema_params !! i = Some element ->
    entry_name element = Some name ->
    json_object_get_member object name = array !! i.
Proof.
  unfold melo_jsonrpc_get_object, melo_jsonrpc_get_array,
    melo_jsonrpc_get_json_node, json_array_get_length.
  destruct (array_loop a _ _ 0 (Some []) None) as [[o1 a1]|] eqn:Hobject;
    [|done].
  destruct (array_loop a _ _ 0 None (Some [])) as [[o2 a2]|] eqn:Harray;
    [|done].
  apply array_loop_to_object in Hobject as (res & -> & Hres).
  apply array_loop_to_array in Harray; [|done]. subst a2. simpl.
  intros [= <- _] [= <- _] Hdistinct i element name Helement Hname.
  rewrite drop_0.
  destruct (Hres name) as [Hin Hout].
  destruct (decide (i < length a)%nat) as [Hi|Hi].
  - rewrite (Hin i element Helement Hname Hi).
    + simpl. symmetry. apply lookup_take_lt.
      by apply lookup_lt_Some in Helement.
    + intros j' e' He' Hname' _.
      apply (Hdistinct j' i e' element name); done.
  - rewrite Hout.
    + symmetry. apply lookup_ge_None. rewrite length_take. lia.
    + intros j e He Hj Hname'.
      assert (j = i) by (apply (Hdistinct j i e element name); done). lia.
Qed.

(** X20: the error slot of the core walk.  A slot that holds an error, and
    the absence of a slot, are left as they are.  An empty slot is filled
    exactly when the walk fails with a schema: with
    [{"code":-32600,"message":"Invalid request"}] when there are no
    parameters, with [{"code":-32602,"message":"Invalid params"}]
    otherwise; without a schema the walk fails and reports nothing. *)
Theorem error_slot_discipline (schema_params : option JsonArray)
    (params : option JsonNode) (obj : option JsonObject)
    (array : option JsonArray) (error : error_slot) :
  let '(ret, error') :=
    melo_jsonrpc_get_json_node schema_params params obj array error in
  (error <> Some None -> error' = error)
  /\ (error = Some None ->
      error' =
        match ret, schema_params, params with
        | Some _, _, _ | None, None, _ => Some None
        | None, Some _, None =>
            Some (Some (JObject [("code", JInt (-32600));
                                 ("message", JString "Invalid request")]))
        | None, Some _, Some _ =>
            Some (Some (JObject [("code", JInt (-32602));
                                 ("message", JString "Invalid params")]))
        end)
  /\ (schema_params = None -> ret = None).
Proof.
  unfold melo_jsonrpc_get_json_node.
  destruct schema_params as [schema|]; [|by repeat split; intros ->].
  destruct params as [params|].
  - assert (forall out : walk_exit,
        let '(ret, error') :=
          match out with
          | Some out => (Some out, error)
          | None => (None, set_error error MELO_JSONRPC_ERROR_INVALID_PARAMS
                             "Invalid params")
          end in
        (error <> Some None -> error' = error)
        /\ (error = Some None ->
            error' =
              match ret with
              | Some _ => Some None
              | None =>
                  Some (Some (JObject [("code", JInt (-32602));
                                       ("message", JString "Invalid params")]))
              end)
        /\ (Some schema = None -> ret = None)) as Hwalk.
    { intros [out|]; (split; [|split; [|done]]).
      - done.
      - by intros ->.
      - by destruct error as [[]|].
      - by intros ->. }
    destruct params; try (split; [done|split; done]).
    + apply (Hwalk (object_loop _ _ _ _)).
    + apply (Hwalk (array_loop _ _ _ _ _ _)).
  - split; [|split; [|done]].
    + by destruct error as [[]|].
    + by intros ->.
Qed.

(** ** The debug page *)

Section DebugPage.

Context {World : Type}.
Implicit Type melo_jsonrpc_methods : option (gmap string (@MeloJSONRPCInternalMethod World)).

(** X21: a call of the debug page is a request with the id 1 when its
    parameters are left out or are an array or an object, and then the
    response carries the id 1, whatever the method; with any other
    parameters, null among them, the server answers
    [{"jsonrpc":"2.0","error":{"code":-32600,"message":"Invalid request"},
    "id":null}], and the page cannot tell which call that answers. *)
Theorem debug_call_answered melo_jsonrpc_methods method params w :
  let response :=
    (melo_jsonrpc_parse_node melo_jsonrpc_methods (jsonrpc_call method params)
       w).2 in
  if params_shape_ok params
  then response_id response = Some (JInt 1)
  else response
       = Some (JObject
                 [("jsonrpc", JString "2.0");
                  ("error", JObject [("code", JInt (-32600));
                                     ("message", JString "Invalid request")]);
                  ("id", JNull)]).
Proof.
  intros response. subst response.
  destruct (params_shape_ok params) eqn:Hshape.
  - assert (exists obj,
               jsonrpc_call method params = JObject obj
               /\ is_request obj = true
               /\ json_object_get_member obj "id" = Some (JInt 1))
      as (obj & -> & Hreq & Hid).
    { eexists. split; [reflexivity|].
      destruct params as [[]|]; try discriminate; split; reflexivity. }
    by rewrite (response_id_of_member _ _ _ _ Hreq Hid).
  - rewrite parse_node_not_a_request; [done|].
    destruct params as [[]|]; try discriminate; reflexivity.
Qed.

End DebugPage.

(** ** Media tags *)

Section MoreTags.

Variables NONE FULL TITLE ARTIST ALBUM GENRE DATE TRACK TRACKS COVER : Z.
Variable g_base64_encode : list Byte.byte -> string.

Local Abbreviation get_fields_loop :=
  (get_fields_loop NONE FULL TITLE ARTIST ALBUM GENRE DATE TRACK TRACKS COVER).

Local Ltac field_cases :=
  repeat match goal with
         | |- context [String.eqb ?s ?lit] => destruct (String.eqb s lit)
         end.

Lemma get_fields_loop_stops pre x post fields :
  json_node_get_string x = None ->
  get_fields_loop (pre ++ x :: post) fields = get_fields_loop pre fields.
Proof.
  intros Hx. revert fields.
  induction pre as [|element pre IH]; intros fields; simpl.
  - by rewrite Hx.
  - destruct (json_node_get_string element) as [field|]; [|done].
    field_cases; done.
Qed.

(** X22: the list of fields is read up to its first element that is no
    string: that element and all that follows it count for nothing. *)
Theorem tags_fields_stop_at_non_string (pre post : JsonArray) (x : JsonNode) :
  json_node_get_string x = None ->
  melo_tags_get_fields_from_json_array NONE FULL TITLE ARTIST ALBUM GENRE
    DATE TRACK TRACKS COVER (pre ++ x :: post)
  = melo_tags_get_fields_from_json_array NONE FULL TITLE ARTIST ALBUM GENRE
      DATE TRACK TRACKS COVER pre.
Proof. intros Hx. by apply get_fields_loop_stops. Qed.

Lemma get_fields_loop_none_full pre post fields :
  Forall (fun element =>
            exists field, element = JString field
                          /\ field <> "none" /\ field <> "full") pre ->
  get_fields_loop (pre ++ JString "none" :: post) fields = NONE
  /\ get_fields_loop (pre ++ JString "full" :: post) fields = FULL.
Proof.
  intros Hpre. revert fields.
  induction Hpre as [|element pre (field & -> & Hn & Hf) _ IH]; intros fields.
  - split; reflexivity.
  - cbn [app]. cbn [get_fields_loop json_node_get_string].
    rewrite (proj2 (String.eqb_neq _ _) Hn), (proj2 (String.eqb_neq _ _) Hf).
    field_cases; apply IH.
Qed.

(** X23: the first of the words "none" and "full" in a list decides: when
    every element before it is a name other than these two, "none" selects
    no field and "full" selects them all, whatever names come before and
    whatever comes after, the other word included. *)
Theorem tags_fields_none_full (pre post : JsonArray) :
  Forall (fun element =>
            exists field, element = JString field
                          /\ field <> "none" /\ field <> "full") pre ->
  melo_tags_get_fields_from_json_array NONE FULL TITLE ARTIST ALBUM GENRE
    DATE TRACK TRACKS COVER (pre ++ JString "none" :: post) = NONE
  /\ melo_tags_get_fields_from_json_array NONE FULL TITLE ARTIST ALBUM GENRE
       DATE TRACK TRACKS COVER (pre ++ JString "full" :: post) = FULL.
Proof.
  intros Hpre. by apply get_fields_loop_none_full.
Qed.

Local Ltac set_cases :=
  repeat match goal with
         | |- context [has_field ?f ?flag] => destruct (has_field f flag)
         end.

(** X24: adding tags to an object touches no member but the eight of the
    tags. *)
Theorem tags_added_beside (tags : option MeloTags) (obj : JsonObject)
    (fields : Z) (name : string) :
  name ∉ tag_member_names ->
  json_object_get_member
    (melo_tags_add_to_json_object NONE TITLE ARTIST ALBUM GENRE DATE TRACK
       TRACKS COVER g_base64_encode tags obj fields) name
  = json_object_get_member obj name.
Proof.
  intros Hname. unfold tag_member_names in Hname.
  repeat (apply not_elem_of_cons in Hname as [? Hname]).
  unfold melo_tags_add_to_json_object.
  destruct tags as [tags|]; [|done].
  destruct (fields =? NONE); [done|].
  unfold json_object_set_string_member, json_object_set_int_member.
  destruct (cover tags); set_cases;
    rewrite ?get_set_member_ne by done; done.
Qed.

(** X25: the object made of tags.  It has a member for each selected
    field, except that a cover that is missing is left out; a string that
    is missing is written as null.  It has no member for a field that is
    not selected. *)
Theorem tags_to_json_members (tags : MeloTags) (fields : Z) :
  fields <> NONE ->
  let obj :=
    melo_tags_to_json_object NONE TITLE ARTIST ALBUM GENRE DATE TRACK TRACKS
      COVER g_base64_encode (Some tags) fields in
  let text (selected : bool) (value : option string) :=
    if selected then Some (string_node value) else None in
  let number (selected : bool) (value : Z) :=
    if selected then Some (JInt value) else None in
  json_object_get_member obj "title"
  = text (has_field fields TITLE) (title tags)
  /\ json_object_get_member obj "artist"
     = text (has_field fields ARTIST) (artist tags)
  /\ json_object_get_member obj "album"
     = text (has_field fields ALBUM) (album tags)
  /\ json_object_get_member obj "genre"
     = text (has_field fields GENRE) (genre tags)
  /\ json_object_get_member obj "date"
     = number (has_field fields DATE) (date tags)
  /\ json_object_get_member obj "track"
     = number (has_field fields TRACK) (track tags)
  /\ json_object_get_member obj "tracks"
     = number (has_field fields TRACKS) (tracks tags)
  /\ json_object_get_member obj "cover"
     = (if has_field fields COVER
        then option_map (fun data => JString (g_base64_encode data)) (cover tags)
        else None).
Proof.
  intros Hfields obj text number. subst obj text number.
  unfold melo_tags_to_json_object, melo_tags_add_to_json_object.
  rewrite (proj2 (Z.eqb_neq _ _) Hfields).
  destruct (cover tags); set_cases; repeat split.
Qed.

End MoreTags.

(** ** The properties on concrete inputs *)

Lemma notification_yields_no_response_witness :
  is_request notification_request = true
  /\ json_object_get_string_member notification_request "method"
     = Some "player.play"
  /\ json_object_has_member notification_request "id" = false
  /\ melo_jsonrpc_parse_node example_registry (JObject notification_request) 0%nat
     = (1%nat, None).
Proof.
  split; [reflexivity|]. split; [reflexivity|]. split; [reflexivity|].
  exact (notification_yields_no_response example_registry notification_request
           0%nat "player.play" eq_refl eq_refl eq_refl).
Defined.

Lemma batch_dispatch_witness :
  example_parser "batch"
  = ParseRoot (JArray [JObject notification_request; JObject call_request])
  /\ melo_jsonrpc_parse_request example_parser example_serializer
       example_registry "batch" 0%nat
     = (2%nat,
        Some "[{'jsonrpc':'2.0','error':{'code':-1,'message':'failed'},'id':7}]")
  /\ melo_jsonrpc_parse_request example_parser example_serializer
       example_registry "[]" 0%nat
     = (0%nat,
        Some "{'jsonrpc':'2.0','error':{'code':-32600,'message':'Invalid request'},'id':null}").
Proof.
  split; [reflexivity|]. split.
  - exact (batch_dispatch example_parser example_serializer example_registry
             "batch" _ 0%nat eq_refl).
  - exact (batch_dispatch example_parser example_serializer example_registry
             "[]" [] 0%nat eq_refl).
Defined.

Lemma register_twice_fails_witness :
  registry_lookup example_registry (complete_method_name "player" "play")
  = Some counting_method
  /\ (melo_jsonrpc_register_method example_registry "player" "play"
        None None None NULL = (example_registry, false)
      /\ registry_lookup
           (melo_jsonrpc_register_method example_registry "player" "play"
              None None None NULL).1 (complete_method_name "player" "play")
         = Some counting_method
      /\ NoDup (registered_names
                  (melo_jsonrpc_register_method example_registry "player"
                     "play" None None None NULL).1)).
Proof.
  split; [reflexivity|].
  exact (register_twice_fails example_registry "player" "play"
           None None None NULL counting_method eq_refl).
Defined.

Lemma example_registry_wf : registry_wf example_registry.
Proof. intros H. vm_compute in H. discriminate H. Defined.

Lemma unregister_removes_witness :
  registry_wf example_registry
  /\ registry_lookup
       (melo_jsonrpc_unregister_method example_registry "player" "play")
       "player.play" = None
  /\ melo_jsonrpc_parse_node
       (melo_jsonrpc_unregister_method example_registry "player" "play")
       (JObject call_request) 0%nat
     = (0%nat,
        Some (JObject
                [("jsonrpc", JString "2.0");
                 ("error", JObject [("code", JInt (-32601));
                                    ("message", JString "Method not found")]);
                 ("id", JInt 7)]))
  /\ registry_lookup
       (melo_jsonrpc_unregister_method example_registry "no" "such")
       "player.play" = Some counting_method.
Proof.
  split; [exact example_registry_wf|].
  destruct (unregister_removes example_registry "player" "play"
              example_registry_wf) as (Hgone & _ & Hnot_found & _).
  split; [exact Hgone|]. split.
  - exact (Hnot_found call_request 0%nat (JInt 7) eq_refl eq_refl eq_refl).
  - destruct (unregister_removes example_registry "no" "such"
                example_registry_wf) as (_ & Hother & _).
    rewrite (Hother "player.play"); [reflexivity|discriminate].
Defined.

Lemma mismatch_is_invalid_params_witness :
  [required_int_entry] !! 0%nat
  = Some (JObject [("name", JString "b"); ("type", JString "int")])
  /\ value_at (JObject [("b", JString "x")]) 0 "b" = Some (JString "x")
  /\ type_matches [("name", JString "b"); ("type", JString "int")] (JString "x")
     = false
  /\ melo_jsonrpc_check_params (Some [required_int_entry])
       (Some (JObject [("b", JString "x")])) (Some None)
     = (false,
        Some (Some (JObject [("code", JInt (-32602));
                             ("message", JString "Invalid params")]))).
Proof.
  split; [reflexivity|]. split; [reflexivity|]. split; [reflexivity|].
  exact (proj1 (mismatch_is_invalid_params [required_int_entry]
                  (JObject [("b", JString "x")]) (Some None) 0%nat
                  [("name", JString "b"); ("type", JString "int")] "b"
                  (JString "x") eq_refl eq_refl eq_refl eq_refl)).
Defined.

Lemma scalar_params_accepted_witness :
  JsonNodeType_eqb (json_node_get_node_type (JString "x")) JSON_NODE_OBJECT
  = false
  /\ JsonNodeType_eqb (json_node_get_node_type (JString "x")) JSON_NODE_ARRAY
     = false
  /\ (melo_jsonrpc_check_params (Some [JNull]) (Some (JString "x")) (Some None)
      = (true, Some None)
      /\ melo_jsonrpc_get_object (Some [JNull]) (Some (JString "x")) (Some None)
         = (Some [], Some None)
      /\ melo_jsonrpc_get_array (Some [JNull]) (Some (JString "x")) (Some None)
         = (Some [], Some None)).
Proof.
  split; [reflexivity|]. split; [reflexivity|].
  exact (scalar_params_accepted [JNull] (JString "x") (Some None)
           eq_refl eq_refl).
Defined.



(** The scenarios of the specification: an unregistered method called with
    the id ["x"], and text that is no JSON. *)
Example method_not_found_scenario :
  melo_jsonrpc_parse_node (World := unit) None
    (JObject [("jsonrpc", JString "2.0"); ("method", JString "foo.bar");
              ("id", JString "x")]) tt
  = (tt,
     Some (JObject
             [("jsonrpc", JString "2.0");
              ("error", JObject [("code", JInt (-32601));
                                 ("message", JString "Method not found")]);
              ("id", JString "x")])).
Proof. reflexivity. Qed.

Example parse_error_scenario :
  melo_jsonrpc_parse_request (World := unit) example_parser example_generator
    None "{ jsonrpc" tt
  = (tt,
     Some (example_generator
             (JObject
                 [("jsonrpc", JString "2.0");
                  ("error", JObject [("code", JInt (-32700));
                                     ("message", JString "Parse error")]);
                  ("id", JNull)]))).
Proof. reflexivity. Qed.

(** ** The further properties on concrete inputs *)

Lemma response_is_envelope_witness :
  (melo_jsonrpc_parse_node example_registry (JObject call_request) 0%nat).2
  = Some (melo_jsonrpc_build_response_node None
            (Some (melo_jsonrpc_build_error_node (-1) "failed")) None 7)
  /\ is_envelope
       (melo_jsonrpc_build_response_node None
          (Some (melo_jsonrpc_build_error_node (-1) "failed")) None 7) = true.
Proof.
  split; [reflexivity|].
  exact (response_is_envelope example_registry (JObject call_request) 0%nat _
           eq_refl).
Defined.


Lemma register_unregister_witness :
  registry_wf (World := nat) None
  /\ registry_lookup (World := nat) None (complete_method_name "player" "play")
     = None
  /\ melo_jsonrpc_unregister_method
       (melo_jsonrpc_register_method (World := nat) None "player" "play"
          None None None NULL).1 "player" "play" = None.
Proof.
  split; [exact registry_wf_initial|]. split; [reflexivity|].
  exact (register_unregister None "player" "play" None None None NULL
           registry_wf_initial eq_refl).
Defined.

Lemma qualified_names_collide_witness :
  registry_lookup (World := nat) None
    (complete_method_name ("file" +:+ "." +:+ "db") "scan") = None
  /\ (melo_jsonrpc_register_method (World := nat) None
        ("file" +:+ "." +:+ "db") "scan" None None None NULL).2 = true
  /\ melo_jsonrpc_register_method
       (melo_jsonrpc_register_method (World := nat) None
          ("file" +:+ "." +:+ "db") "scan" None None None NULL).1
       "file" ("db" +:+ "." +:+ "scan") None None None NULL
     = ((melo_jsonrpc_register_method (World := nat) None
           ("file" +:+ "." +:+ "db") "scan" None None None NULL).1, false).
Proof.
  split; [reflexivity|].
  exact (qualified_names_collide None "file" "db" "scan"
           None None None NULL None None None NULL eq_refl).
Defined.

Lemma odd_id_becomes_number_witness :
  is_request null_id_request = true
  /\ json_object_get_member null_id_request "id" = Some JNull
  /\ response_id
       (melo_jsonrpc_parse_node example_registry (JObject null_id_request)
          0%nat).2 = Some (JInt 0).
Proof.
  split; [reflexivity|]. split; [reflexivity|].
  exact (odd_id_becomes_number example_registry null_id_request 0%nat JNull
           eq_refl eq_refl).
Defined.

Lemma example_names_free :
  Forall (fun name => registry_lookup (World := nat) None name = None)
    (bulk_names "player" [unparsable_entry; wrong_shape_entry]).
Proof. repeat constructor. Defined.

Lemma bulk_register_unregister_witness :
  registry_wf (World := nat) None
  /\ Forall (fun name => registry_lookup (World := nat) None name = None)
       (bulk_names "player" [unparsable_entry; wrong_shape_entry])
  /\ melo_jsonrpc_unregister_methods
       (melo_jsonrpc_register_methods example_parser None "player"
          [unparsable_entry; wrong_shape_entry]).1
       "player" [unparsable_entry; wrong_shape_entry] = None.
Proof.
  split; [exact registry_wf_initial|]. split; [exact example_names_free|].
  exact (bulk_register_unregister example_parser None "player"
           [unparsable_entry; wrong_shape_entry]
           registry_wf_initial example_names_free).
Defined.

Lemma positional_to_array_witness :
  melo_jsonrpc_get_array (Some example_schema) (Some (JArray [JInt 1]))
    (Some None) = (Some [JInt 1], Some None)
  /\ ([JInt 1] = take (length example_schema) [JInt 1]
      /\ Some None = Some (None : option JsonNode)).
Proof.
  split; [reflexivity|].
  exact (positional_to_array example_schema [JInt 1] [JInt 1]
           (Some None) (Some None) eq_refl).
Defined.

Lemma keyed_to_object_projects_witness :
  melo_jsonrpc_get_object (Some example_schema)
    (Some (JObject [("b", JInt 1); ("volume", JBool true)])) (Some None)
  = (Some [("b", JInt 1)], Some None)
  /\ (forall name,
        json_object_get_member [("b", JInt 1)] name =
          if decide (name ∈ schema_names example_schema)
          then json_object_get_member [("b", JInt 1); ("volume", JBool true)]
                 name
          else None).
Proof.
  split; [reflexivity|].
  exact (keyed_to_object_projects example_schema
           [("b", JInt 1); ("volume", JBool true)] [("b", JInt 1)]
           (Some None) (Some None) eq_refl).
Defined.

Lemma keyed_to_array_witness :
  melo_jsonrpc_get_array (Some example_schema)
    (Some (JObject [("volume", JBool true); ("b", JInt 1)])) (Some None)
  = (Some [JInt 1], Some None)
  /\ ([JInt 1]
      = prefix_values [("volume", JBool true); ("b", JInt 1)] example_schema
      /\ Some None = Some (None : option JsonNode)).
Proof.
  split; [reflexivity|].
  exact (keyed_to_array example_schema
           [("volume", JBool true); ("b", JInt 1)] [JInt 1]
           (Some None) (Some None) eq_refl).
Defined.

Lemma example_schema_distinct : distinct_names example_schema.
Proof.
  intros [|[|i]] [|[|j]] e1 e2 name H1 H2 N1 N2; simpl in *;
    try reflexivity; try discriminate;
    injection H1 as <-; injection H2 as <-;
    vm_compute in N1, N2; congruence.
Defined.

Lemma positional_object_array_agree_witness :
  melo_jsonrpc_get_object (Some example_schema) (Some (JArray [JInt 1]))
    (Some None) = (Some [("b", JInt 1)], Some None)
  /\ melo_jsonrpc_get_array (Some example_schema) (Some (JArray [JInt 1]))
       (Some None) = (Some [JInt 1], Some None)
  /\ distinct_names example_schema
  /\ example_schema !! 0%nat = Some required_int_entry
  /\ entry_name required_int_entry = Some "b"
  /\ json_object_get_member [("b", JInt 1)] "b" = [JInt 1] !! 0%nat.
Proof.
  split; [reflexivity|]. split; [reflexivity|].
  split; [exact example_schema_distinct|].
  split; [reflexivity|]. split; [reflexivity|].
  exact (positional_object_array_agree example_schema [JInt 1]
           [("b", JInt 1)] [JInt 1] (Some None) (Some None) (Some None)
           eq_refl eq_refl example_schema_distinct
           0%nat required_int_entry "b" eq_refl eq_refl).
Defined.

Lemma tags_fields_stop_at_non_string_witness :
  json_node_get_string (JInt 3) = None
  /\ melo_tags_get_fields_from_json_array 0 255 1 2 4 8 16 32 64 128
       ([JString "title"] ++ JInt 3 :: [JString "artist"])
     = melo_tags_get_fields_from_json_array 0 255 1 2 4 8 16 32 64 128
         [JString "title"].
Proof.
  split; [reflexivity|].
  exact (tags_fields_stop_at_non_string 0 255 1 2 4 8 16 32 64 128
           [JString "title"] [JString "artist"] (JInt 3) eq_refl).
Defined.

Lemma title_is_a_name :
  Forall (fun element =>
            exists field, element = JString field
                          /\ field <> "none" /\ field <> "full")
    [JString "title"].
Proof.
  constructor; [|constructor].
  exists "title". split; [reflexivity|]. split; discriminate.
Defined.

Lemma tags_fields_none_full_witness :
  Forall (fun element =>
            exists field, element = JString field
                          /\ field <> "none" /\ field <> "full")
    [JString "title"]
  /\ (melo_tags_get_fields_from_json_array 0 255 1 2 4 8 16 32 64 128
        ([JString "title"] ++ JString "none" :: [JString "artist"]) = 0
      /\ melo_tags_get_fields_from_json_array 0 255 1 2 4 8 16 32 64 128
           ([JString "title"] ++ JString "full" :: [JString "artist"]) = 255).
Proof.
  split; [exact title_is_a_name|].
  exact (tags_fields_none_full 0 255 1 2 4 8 16 32 64 128
           [JString "title"] [JString "artist"] title_is_a_name).
Defined.

Lemma id_is_no_tag : "id" ∉ tag_member_names.
Proof.
  unfold tag_member_names. intros H.
  repeat (apply elem_of_cons in H as [H|H]; [discriminate H|]).
  by apply elem_of_nil in H.
Defined.

Lemma tags_added_beside_witness :
  ("id" ∉ tag_member_names)
  /\ json_object_get_member
       (melo_tags_add_to_json_object 0 1 2 4 8 16 32 64 128 example_base64
          (Some example_tags) [("id", JString "7")] 17) "id"
     = json_object_get_member [("id", JString "7")] "id".
Proof.
  split; [exact id_is_no_tag|].
  exact (tags_added_beside 0 1 2 4 8 16 32 64 128 example_base64
           (Some example_tags) [("id", JString "7")] 17 "id" id_is_no_tag).
Defined.

Lemma seventeen_is_not_none : (17 : Z) <> 0.
Proof. discriminate. Defined.

Lemma tags_to_json_members_witness :
  (17 : Z) <> 0
  /\ json_object_get_member
       (melo_tags_to_json_object 0 1 2 4 8 16 32 64 128 example_base64
          (Some example_tags) 17) "title"
     = Some (JString "Blue in Green")
  /\ json_object_get_member
       (melo_tags_to_json_object 0 1 2 4 8 16 32 64 128 example_base64
          (Some example_tags) 17) "date"
     = Some (JInt 1959)
  /\ json_object_get_member
       (melo_tags_to_json_object 0 1 2 4 8 16 32 64 128 example_base64
          (Some example_tags) 17) "artist"
     = None.
Proof.
  split; [exact seventeen_is_not_none|].
  destruct (tags_to_json_members 0 1 2 4 8 16 32 64 128 example_base64
              example_tags 17 seventeen_is_not_none)
    as (Htitle & Hartist & _ & _ & Hdate & _).
  split; [exact Htitle|]. split; [exact Hdate|exact Hartist].
Defined.
